(** * status.py: a concurrent URL status checker with per-domain rate limits

    A shallow embedding of [status.py] and the properties of its rate limits,
    its registry of rate limits and its worker pool.

    Conventions of the embedding.

    - Text is a [string]; its characters are read as code points below 128
      (ASCII), on which the character classes of Python ([str.isspace], the
      [\w] of [re]) are the ones written out below.
    - A Python number is an [int] or a [float]; floats are IEEE 754 binary64
      values, taken from the standard library's executable specification
      ([spec_float], precision 53, maximal exponent 1024).
    - A coroutine runs without interruption from one [await] that suspends to
      the next (asyncio schedules cooperatively, on one thread).  A step of the
      models below is one such uninterrupted stretch, or a part of one.
    - What the environment supplies is an argument: the readings of
      [time.time()], the reply of [session.head], and the builtin [float] that
      parses the text of a rate.
    - Line 46 of the source, the row written after a successful request, puts
      string literals and names side by side with no operator between them
      and is not accepted by Python's parser as it stands.  It is read here
      with each juxtaposition as a concatenation and [status] rendered in
      decimal: two fields, separated by the one comma of the list. *)

From Stdlib Require Import ZArith List Bool Ascii String Lia Permutation.
From Stdlib Require Import SpecFloat DecimalString Sorted.
Import ListNotations.

Local Open Scope Z_scope.
Local Open Scope list_scope.
Local Open Scope string_scope.

(** ** Text *)

Definition code (c : ascii) : N := N_of_ascii c.

(** [str.isspace] on ASCII: tab to carriage return, the four separators
    0x1c to 0x1f, and the space. *)
Definition is_space (c : ascii) : bool :=
  ((9 <=? code c) && (code c <=? 13) || (28 <=? code c) && (code c <=? 32))%N.

(** [\w] on ASCII: letters, digits and the underscore. *)
Definition is_word (c : ascii) : bool :=
  ((48 <=? code c) && (code c <=? 57) || (65 <=? code c) && (code c <=? 90)
   || (97 <=? code c) && (code c <=? 122) || (code c =? 95))%N.

Fixpoint lstrip (s : string) : string :=
  match s with
  | String c s' => if is_space c then lstrip s' else s
  | EmptyString => EmptyString
  end.

Fixpoint rstrip (s : string) : string :=
  match s with
  | String c s' =>
      match rstrip s' with
      | EmptyString => if is_space c then EmptyString else String c EmptyString
      | r => String c r
      end
  | EmptyString => EmptyString
  end.

(** [str.strip()] *)
Definition strip (s : string) : string := rstrip (lstrip s).

(** [s.endswith(suffix)] *)
Definition endswith (s suffix : string) : bool :=
  (length suffix <=? length s)%nat
  && (substring (length s - length suffix) (length suffix) s =? suffix).

(** The longest prefix of characters satisfying [p], and the rest. *)
Fixpoint span (p : ascii -> bool) (s : string) : string * string :=
  match s with
  | String c s' =>
      if p c then let (a, b) := span p s' in (String c a, b)
      else (EmptyString, s)
  | EmptyString => (EmptyString, EmptyString)
  end.

Definition is_colon (c : ascii) : bool := (c =? ":")%char.

(** [':' in raw] and [raw.split(':', 1)]: the text before the first colon and
    the text after it; [None] when there is no colon. *)
Fixpoint split_colon (raw : string) : option (string * string) :=
  match raw with
  | String c s' =>
      if is_colon c then Some (EmptyString, s')
      else match split_colon s' with
           | Some (a, b) => Some (String c a, b)
           | None => None
           end
  | EmptyString => None
  end.

(** [PROTOCOL_PATTERN.match(url) is not None], for the pattern [^\w+://].
    A colon is no word character, so the run of word characters that the
    pattern takes is the longest one and no backtracking applies. *)
Definition PROTOCOL_PATTERN (url : string) : bool :=
  let (w, rest) := span is_word url in
  negb (w =? EmptyString) && prefix "://" rest.

(** [DOMAIN_PATTERN.match(url)], for the pattern [^[^:]+://([^/:]+)]: the
    text of group 1 when the pattern matches, [None] when it does not.  The
    first class stops at the first colon, which the literal must match; the
    group is greedy and nothing follows it. *)
Definition DOMAIN_PATTERN (url : string) : option string :=
  let (scheme, rest) := span (fun c => negb (is_colon c)) url in
  if negb (scheme =? EmptyString) && prefix "://" rest then
    let (host, _) :=
      span (fun c => negb ((c =? "/")%char || is_colon c))
           (substring 3 (length rest - 3) rest) in
    if host =? EmptyString then None else Some host
  else None.

(** [file.readline()] on the text not yet read: the line up to and including
    its newline (or up to the end of the text), and the text left.  The line
    is empty exactly at the end of the file. *)
Fixpoint readline (text : string) : string * string :=
  match text with
  | String c s' =>
      if (c =? "010")%char then (String c EmptyString, s')
      else let (l, rest) := readline s' in (String c l, rest)
  | EmptyString => (EmptyString, EmptyString)
  end.

(** [str(n)] for an [int]. *)
Definition str_of_int (n : Z) : string := NilZero.string_of_int (Z.to_int n).

(** ** Numbers *)

Definition prec : Z := 53.
Definition emax : Z := 1024.

(** The float 0.0. *)
Definition zero : spec_float := S754_zero false.

(** A binary64 value: a mantissa of at most 53 bits on an exponent in range,
    an infinity, a zero or a NaN. *)
Definition valid (x : spec_float) : bool := valid_binary prec emax x.

Inductive number : Type :=
| PyInt (z : Z)
| PyFloat (f : spec_float).

(** The float nearest to an [int] (ties to even), as Python converts the
    [int] operand of a mixed operation; the program's [int]s are 0, 1 and 2. *)
Definition float_of_int (z : Z) : spec_float := binary_normalize prec emax z 0 false.

Definition to_float (n : number) : spec_float :=
  match n with
  | PyInt z => float_of_int z
  | PyFloat f => f
  end.

Definition py_add (a b : number) : number :=
  match a, b with
  | PyInt x, PyInt y => PyInt (x + y)
  | _, _ => PyFloat (SFadd prec emax (to_float a) (to_float b))
  end.

Definition py_sub (a b : number) : number :=
  match a, b with
  | PyInt x, PyInt y => PyInt (x - y)
  | _, _ => PyFloat (SFsub prec emax (to_float a) (to_float b))
  end.

(** [a > b] *)
Definition py_gt (a b : number) : bool :=
  match a, b with
  | PyInt x, PyInt y => (y <? x)%Z
  | _, _ => SFltb (to_float b) (to_float a)
  end.

(** ** Exceptions *)

Inductive exception : Type :=
| ValueError (msg : string)
| ZeroDivisionError (msg : string)
| AttributeError (msg : string)
| ClientError (msg : string).

(** [str(error)] *)
Definition str_of_exception (e : exception) : string :=
  match e with
  | ValueError msg | ZeroDivisionError msg | AttributeError msg | ClientError msg => msg
  end.

Inductive result (A : Type) : Type :=
| Return (a : A)
| Raise (e : exception).
Arguments Return {A} a.
Arguments Raise {A} e.

(** [a / b] with a float among the operands. *)
Definition py_truediv (a b : number) : result number :=
  if SFeqb (to_float b) (S754_zero false) then Raise (ZeroDivisionError "float division by zero")
  else Return (PyFloat (SFdiv prec emax (to_float a) (to_float b))).

(** ** class RateLimit *)

Record RateLimit : Type := {
  domain : option string;
  rate : spec_float;
  interval : number;
  last_use : number
}.

Definition quote : string := String (ascii_of_nat 34) EmptyString.

Section Construction.

(** The builtin [float] on text: the parsed value, or [None] where it
    raises [ValueError]. *)
Variable py_float : string -> option spec_float.

(** [RateLimit.__init__(self, raw)] *)
Definition RateLimit_init (raw : string) : result RateLimit :=
  let (domain, rate_text) :=
    match split_colon raw with
    | Some (d, t) => (Some d, t)
    | None => (None, raw)
    end in
  match py_float rate_text with
  | None => Raise (ValueError ("Invalid rate format: " ++ quote ++ raw ++ quote))
  | Some rate =>
      match (if py_gt (PyFloat rate) (PyInt 0)
             then py_truediv (PyInt 1) (PyFloat rate)
             else Return (PyInt 0)) with
      | Raise e => Raise e
      | Return interval =>
          Return {| domain := domain; rate := rate;
                    interval := interval; last_use := PyInt 0 |}
      end
  end.

End Construction.

(** [not self.domain]: the domain is [None] or the empty text. *)
Definition no_domain (r : RateLimit) : bool :=
  match domain r with
  | None => true
  | Some d => d =? EmptyString
  end.

(** [RateLimit.matches(self, domain)] *)
Definition matches (r : RateLimit) (d : string) : bool :=
  match domain r with
  | None => true
  | Some scope =>
      if scope =? EmptyString then true
      else (d =? scope) || endswith d ("." ++ scope)
  end.

Definition set_last_use (r : RateLimit) (t : number) : RateLimit :=
  {| domain := domain r; rate := rate r; interval := interval r; last_use := t |}.

(** What one uninterrupted stretch of [wait] ends with: the coroutine is
    suspended in [asyncio.sleep(remaining)], or it has returned. *)
Inductive waited : Type :=
| Sleep (remaining : number)
| Acquired.

(** [self.last_use + self.interval - time.time()], at the reading [t]. *)
Definition remaining_at (r : RateLimit) (t : spec_float) : number :=
  py_sub (py_add (last_use r) (interval r)) (PyFloat t).

(** One stretch of [RateLimit.wait]: from the head of the loop (on entry, with
    [remaining = 1], or when the sleep is over, with [remaining > 0]) to the
    next [await] or to the return.  [t1] is the reading inside the loop, [t2]
    the reading assigned to [last_use], which is taken only when the loop is
    left; nothing is awaited between the two. *)
Definition wait_turn (r : RateLimit) (t1 t2 : spec_float) : RateLimit * waited :=
  let remaining := remaining_at r t1 in
  if py_gt remaining (PyInt 0) then (r, Sleep remaining)
  else (set_last_use r (PyFloat t2), Acquired).

(** [RateLimit.wait(self)] run by one task alone, on the successive readings
    of the clock: the rate limit it leaves and the sleeps it went through.
    [None] when the readings run out before it returns. *)
Fixpoint wait (r : RateLimit) (clock : list spec_float) : option (RateLimit * list number) :=
  match clock with
  | t1 :: clock' =>
      match wait_turn r t1 (hd t1 clock') with
      | (_, Sleep remaining) =>
          match wait r clock' with
          | Some (r', sleeps) => Some (r', remaining :: sleeps)
          | None => None
          end
      | (r', Acquired) =>
          match clock' with
          | _ :: _ => Some (r', [])
          | [] => None
          end
      end
  | [] => None
  end.

(** ** The registry: options.rate *)

(** The key of the sort, [x.domain or '']. *)
Definition sort_key (x : RateLimit) : string :=
  match domain x with
  | Some d => d
  | None => EmptyString
  end.

(** Insertion into a list in descending order of keys, before the first
    element whose key is not greater: elements of equal keys stay in the
    order they came in. *)
Fixpoint insert_rate (x : RateLimit) (l : list RateLimit) : list RateLimit :=
  match l with
  | y :: l' => if (sort_key x <? sort_key y) then y :: insert_rate x l' else x :: l
  | [] => [x]
  end.

(** [options.rate.sort(key=lambda x: x.domain or '', reverse=True)]: the keys
    are compared as text (code point by code point), the sort is stable, and
    [reverse=True] keeps elements of equal keys in their original order. *)
Definition sort_rates (rates : list RateLimit) : list RateLimit :=
  fold_right insert_rate [] rates.

(** [next((x for x in options.rate if x.matches(domain)), None)] *)
Definition rate_lock (rates : list RateLimit) (d : string) : option RateLimit :=
  find (fun x => matches x d) rates.

(** ** get_status *)

Definition normalize (url : string) : string :=
  if PROTOCOL_PATTERN url then url else "http://" ++ url.

(** [get_status(session, url)], given the reply [head] of [session.head]: its
    status, or the exception it raises.  A url from which [DOMAIN_PATTERN]
    extracts nothing makes [.group(1)] fail on [None] before any request is
    made.  Waiting on the rate limit delays the request and leaves its reply
    as it is. *)
Definition get_status (head : result Z) (url : string) : result Z :=
  match DOMAIN_PATTERN (normalize url) with
  | None => Raise (AttributeError "'NoneType' object has no attribute 'group'")
  | Some _ => head
  end.

(** The rate limit [get_status] waits on, if any. *)
Definition gate_of (rates : list RateLimit) (url : string) : option RateLimit :=
  match DOMAIN_PATTERN (normalize url) with
  | None => None
  | Some d => rate_lock rates d
  end.

(** ** worker *)

Inductive event : Type :=
| Write (row : list string)
| Flush.

(** The row of line 46, after a request that returned [status]. *)
Definition row_of_status (status : Z) (url : string) : list string :=
  ["Status:" ++ str_of_int status; " <br><a href=" ++ url ++ ">" ++ url ++ "</br>"].

(** The row of line 48, after an exception. *)
Definition row_of_error (url : string) (error : exception) : list string :=
  [url; "ERROR: " ++ str_of_exception error].

Definition row_of (url : string) (r : result Z) : list string :=
  match r with
  | Return status => row_of_status status url
  | Raise error => row_of_error url error
  end.

(** [time.time() - start_time > 2] *)
Definition flush_due (start_time now : spec_float) : bool :=
  py_gt (py_sub (PyFloat now) (PyFloat start_time)) (PyInt 2).

(** Where a worker stands between two stretches: not started, at the head of
    its loop, suspended in [await get_status(session, url)], or returned. *)
Inductive worker_state : Type :=
| Fresh
| Loop (start_time : spec_float)
| Await (start_time : spec_float) (url : string)
| Exited.

(** One stretch of [worker] on the unread text [file]: the text left, the
    state reached and the events on [output].  [now] is the reading of the
    clock the stretch takes (for [start_time], or for the test before the
    flush), [head] the reply the request of this stretch got. *)
Definition worker (now : spec_float) (head : result Z) (file : string) (w : worker_state)
  : option (string * worker_state * list event) :=
  match w with
  | Fresh => Some (file, Loop now, [])
  | Loop start_time =>
      let (line, rest) := readline file in
      if line =? EmptyString then Some (rest, Exited, [])
      else Some (rest, Await start_time (strip line), [])
  | Await start_time url =>
      Some (file, Loop start_time,
            Write (row_of url (get_status head url))
              :: (if flush_due start_time now then [Flush] else []))
  | Exited => None
  end.

(** ** The pool: asyncio.gather over the workers *)

(** The number of workers the script starts. *)
Definition CONCURRENT_REQUESTS : nat := 200.

Record pool : Type := {
  file : string;
  workers : list worker_state;
  output : list event
}.

Fixpoint update {A : Type} (i : nat) (x : A) (l : list A) : list A :=
  match l, i with
  | y :: l', O => x :: l'
  | y :: l', S i' => y :: update i' x l'
  | [], _ => []
  end.

(** The event loop resumes worker [i]. *)
Definition step (i : nat) (now : spec_float) (head : result Z) (p : pool) : option pool :=
  match nth_error (workers p) i with
  | Some w =>
      match worker now head (file p) w with
      | Some (rest, w', events) =>
          Some {| file := rest; workers := update i w' (workers p);
                  output := output p ++ events |}
      | None => None
      end
  | None => None
  end.

(** A resumption: the worker resumed, the reading of the clock and the
    reply of the request. *)
Definition resumption : Type := nat * spec_float * result Z.

Definition resume (i : nat) (now : spec_float) (head : result Z) : resumption :=
  (i, now, head).

Fixpoint run (schedule : list resumption) (p : pool) : option pool :=
  match schedule with
  | (i, now, head) :: schedule' =>
      match step i now head p with
      | Some p' => run schedule' p'
      | None => None
      end
  | [] => Some p
  end.

(** The pool as the script starts it, with [n] workers on one file. *)
Definition start (n : nat) (text : string) : pool :=
  {| file := text; workers := repeat Fresh n; output := [] |}.

Definition exited (w : worker_state) : bool :=
  match w with
  | Exited => true
  | _ => false
  end.

(** [loop.run_until_complete(asyncio.gather( *workers))] returns. *)
Definition complete (p : pool) : bool := forallb exited (workers p).

(** The rows written, in the order of writing. *)
Fixpoint rows (events : list event) : list (list string) :=
  match events with
  | Write row :: events' => row :: rows events'
  | Flush :: events' => rows events'
  | [] => []
  end.

(** For each row written, whether a flush follows it at once. *)
Fixpoint flushes (events : list event) : list bool :=
  match events with
  | Write _ :: Flush :: events' => true :: flushes events'
  | Write _ :: events' => false :: flushes events'
  | Flush :: events' => flushes events'
  | [] => []
  end.

(** The lines of a text, as successive calls of [readline] return them. *)
Fixpoint lines_upto (n : nat) (text : string) : list string :=
  match n with
  | S n' =>
      let (line, rest) := readline text in
      if line =? EmptyString then [] else line :: lines_upto n' rest
  | O => []
  end.

Definition lines (text : string) : list string := lines_upto (length text) text.

Definition blank (line : string) : bool := strip line =? EmptyString.

(** ** Tasks waiting on one rate limit *)

(** A task that called [wait] on the rate limit: still inside [wait] (about
    to run a stretch of it, or asleep), or returned, with the reading it
    assigned to [last_use]. *)
Inductive task : Type :=
| Waiting
| Done (stamp : spec_float).

Record gate : Type := {
  lock : RateLimit;
  tasks : list task;
  clock : spec_float
}.

(** A reading [b] of [time.time()] taken after the reading [a]: a binary64
    value that is not below [a] (so neither is a NaN). *)
Definition ticks (a b : spec_float) : bool := valid b && SFleb a b.

(** The event loop resumes task [i], which runs one stretch of [wait]. *)
Definition gate_step (i : nat) (t1 t2 : spec_float) (g : gate) : option gate :=
  match nth_error (tasks g) i with
  | Some Waiting =>
      if ticks (clock g) t1 then
        match wait_turn (lock g) t1 t2 with
        | (r, Sleep _) => Some {| lock := r; tasks := tasks g; clock := t1 |}
        | (r, Acquired) =>
            if ticks t1 t2
            then Some {| lock := r; tasks := update i (Done t2) (tasks g); clock := t2 |}
            else None
        end
      else None
  | _ => None
  end.

Fixpoint gate_run (schedule : list (nat * spec_float * spec_float)) (g : gate) : option gate :=
  match schedule with
  | (i, t1, t2) :: schedule' =>
      match gate_step i t1 t2 g with
      | Some g' => gate_run schedule' g'
      | None => None
      end
  | [] => Some g
  end.

(** [n] tasks call [wait] on a rate limit, the clock reading [t0]. *)
Definition gate_start (r : RateLimit) (n : nat) (t0 : spec_float) : gate :=
  {| lock := r; tasks := repeat Waiting n; clock := t0 |}.

(** The test of [wait], on two recorded readings: [later] is still within
    the interval that [earlier] opened.  *)
Definition within (i : number) (earlier later : spec_float) : bool :=
  py_gt (py_sub (py_add (PyFloat earlier) i) (PyFloat later)) (PyInt 0).

(** ** The sink of the specification, for comparison *)

(** Following the words of the specification ([maybeFlush]): one time of the
    last flush for the whole sink, a flush when more than 2 seconds have
    passed since it, and the time of the last flush moved to that flush.
    For each row written at the times given, whether a flush follows. *)
Fixpoint sink_flushes (last_flush : spec_float) (times : list spec_float) : list bool :=
  match times with
  | now :: times' =>
      if flush_due last_flush now then true :: sink_flushes now times'
      else false :: sink_flushes last_flush times'
  | [] => []
  end.

(** ** Binary64 values as integers *)

(** The least exponent of a binary64 value, -1074. *)
Definition emin : Z := SpecFloat.emin prec emax.

(** A value whose exponent is not below the least one; every value the
    operations return is such. *)
Definition low (x : spec_float) : Prop :=
  match x with
  | S754_finite _ _ e => emin <= e
  | _ => True
  end.

(** The value of a finite float in units of [2^emin]. *)
Definition scaled (x : spec_float) : Z :=
  match x with
  | S754_finite s m e => cond_Zopp s (Zpos m) * 2 ^ (e - emin)
  | _ => 0
  end.

Definition finite (x : spec_float) : bool :=
  match x with
  | S754_finite _ _ _ | S754_zero _ => true
  | _ => false
  end.

(** ** Quantities of the text and of the registry *)

(** No colon occurs in the text. *)
Fixpoint colon_free (s : string) : bool :=
  match s with
  | String c s' => negb (is_colon c) && colon_free s'
  | EmptyString => true
  end.

Definition nonempty (s : string) : bool := negb (s =? EmptyString).

(** After a rate limit with no domain come only rate limits with no domain. *)
Fixpoint catch_all_last (l : list RateLimit) : Prop :=
  match l with
  | x :: l' => (no_domain x = true -> forallb no_domain l' = true) /\ catch_all_last l'
  | [] => True
  end.

(** ** Quantities of a pool *)

(** The url a worker is suspended on. *)
Definition pending (w : worker_state) : list string :=
  match w with
  | Await _ url => [url]
  | _ => []
  end.

(** The urls read from the file whose row is not yet written. *)
Definition awaiting (ws : list worker_state) : list string := flat_map pending ws.

(** The row written for a url whose request got the reply [head]. *)
Definition answer (done : string * result Z) : list string :=
  row_of (fst done) (get_status (snd done) (fst done)).

(** The stretches a worker has yet to run before it can take a new line. *)
Definition weight (w : worker_state) : nat :=
  match w with
  | Fresh => 2
  | Loop _ => 1
  | Await _ _ => 2
  | Exited => 0
  end.

(** The stretches left to a pool: two for each line not yet read. *)
Definition stretches (p : pool) : nat :=
  (list_sum (map weight (workers p)) + 2 * List.length (lines (file p)))%nat.

Definition start_time_of (w : worker_state) : option spec_float :=
  match w with
  | Loop start_time | Await start_time _ => Some start_time
  | _ => None
  end.

(** The events of one row: the row, and the flush that may follow it. *)
Definition written (entry : list string * bool) : list event :=
  Write (fst entry) :: (if snd entry then [Flush] else []).

(** Every line read so far is accounted for: its row is written, or a worker
    is suspended on it; and once a worker has returned, the file is at its
    end. *)
Definition served (text : string) (p : pool) : Prop :=
  exists done : list (string * result Z),
    rows (output p) = map answer done
    /\ Permutation (map fst done ++ awaiting (workers p) ++ map strip (lines (file p)))
                   (map strip (lines text))
    /\ (existsb exited (workers p) = true -> file p = EmptyString).

(** ** Quantities of a gate *)

(** Two recorded readings are not within the interval of each other: one of
    them is outside the interval that the other opened. *)
Definition spaced (i : number) (a b : spec_float) : Prop :=
  within i a b = false \/ within i b a = false.

(** What holds of the tasks on a rate limit of interval [i] all along: the
    readings are binary64 values, [last_use] is the latest of the readings
    recorded and is not ahead of the clock, every other recorded reading
    lies outside the interval before it, and the recorded readings are
    spaced two by two. *)
Definition gate_inv (i : number) (g : gate) : Prop :=
  interval (lock g) = i
  /\ valid (clock g) = true
  /\ SFleb (clock g) (clock g) = true
  /\ match last_use (lock g) with
     | PyInt _ => True
     | PyFloat l => valid l = true /\ SFleb l (clock g) = true
     end
  /\ (forall k t, nth_error (tasks g) k = Some (Done t) ->
        valid t = true
        /\ exists l, last_use (lock g) = PyFloat l /\ SFleb t l = true
                     /\ (t = l \/ within i t l = false))
  /\ (forall j k tj tk, j <> k ->
        nth_error (tasks g) j = Some (Done tj) ->
        nth_error (tasks g) k = Some (Done tk) ->
        spaced i tj tk).

(** ** Examples *)

(** The float [m * 2^e]. *)
Definition flt (m e : Z) : spec_float := binary_normalize prec emax m e false.

Definition nl : string := String "010" EmptyString.

Definition no_group : string := "'NoneType' object has no attribute 'group'".

(** The rate limits of [--rate example.com:1] and [--rate api.example.com:5]. *)
Definition rate_example : RateLimit :=
  {| domain := Some "example.com"; rate := flt 1 0;
     interval := PyFloat (SFdiv prec emax (flt 1 0) (flt 1 0)); last_use := PyInt 0 |}.

Definition rate_api : RateLimit :=
  {| domain := Some "api.example.com"; rate := flt 5 0;
     interval := PyFloat (SFdiv prec emax (flt 1 0) (flt 5 0)); last_use := PyInt 0 |}.

(** The builtin [float] on the decimal integers with an optional minus sign,
    a part of the texts it accepts; it stands for [float] in the examples. *)
Fixpoint digits_value (acc : Z) (s : string) : option Z :=
  match s with
  | String c s' =>
      if ((48 <=? code c) && (code c <=? 57))%N
      then digits_value (10 * acc + (Z.of_N (code c) - 48)) s'
      else None
  | EmptyString => Some acc
  end.

Definition float_of_literal (s : string) : option spec_float :=
  match s with
  | EmptyString => None
  | String "-" EmptyString => None
  | String "-" s' => option_map (fun z => SFopp (float_of_int z)) (digits_value 0 s')
  | _ => option_map float_of_int (digits_value 0 s)
  end.

(** Two workers on a file of two lines: the first request is answered 200,
    the second fails. *)
Definition two_lines : string := "a.example" ++ nl ++ "b.example" ++ nl.

Definition two_workers : list resumption :=
  [ resume 0 (flt 0 0) (Return 0); resume 1 (flt 0 0) (Return 0);
    resume 0 (flt 0 0) (Return 0); resume 1 (flt 0 0) (Return 0);
    resume 0 (flt 1 0) (Return 200); resume 0 (flt 1 0) (Return 0);
    resume 1 (flt 1 0) (Raise (ClientError "timed out"));
    resume 1 (flt 1 0) (Return 0) ].

(** A worker suspended on the request for b.example. *)
Definition suspended : pool :=
  {| file := EmptyString; workers := [Await (flt 0 0) "b.example"]; output := [] |}.

(** A worker at the head of its loop, a blank line next in the file. *)
Definition before_blank : pool :=
  {| file := nl ++ "c.example" ++ nl; workers := [Loop (flt 0 0)]; output := [] |}.

(** One worker on a file of one line (blank, or not), the reply coming one
    second after the worker started. *)
Definition one_worker : list resumption :=
  [ resume 0 (flt 0 0) (Return 0); resume 0 (flt 0 0) (Return 0);
    resume 0 (flt 1 0) (Return 200); resume 0 (flt 1 0) (Return 0) ].

(** One worker, started at time 0, on a file of two lines, its requests
    answered at the times 3 and 3.5. *)
Definition one_worker_slow : list resumption :=
  [ resume 0 (flt 0 0) (Return 0); resume 0 (flt 0 0) (Return 0);
    resume 0 (flt 3 0) (Return 200); resume 0 (flt 3 0) (Return 0);
    resume 0 (flt 7 (-1)) (Return 200); resume 0 (flt 7 (-1)) (Return 0) ].

(** Two tasks on the rate limit of example.com, one request per second: the
    first acquires at time 10, the second finds the gate closed, sleeps, and
    acquires at time 11. *)
Definition two_tasks : list (nat * spec_float * spec_float) :=
  [ (0%nat, flt 10 0, flt 10 0); (1%nat, flt 10 0, flt 10 0); (1%nat, flt 11 0, flt 11 0) ].

(** ** Tactics *)

(** Case analysis on the signs of the floats of a goal, each case settled by
    computation. *)
Ltac float_cases :=
  repeat match goal with
         | s : bool |- _ => destruct s
         end;
  cbn; intros; try reflexivity; try discriminate.

(** ** Quantities of the further properties *)

(** Every character of the text satisfies [p]. *)
Fixpoint all_chars (p : ascii -> bool) (s : string) : bool :=
  match s with
  | String c s' => p c && all_chars p s'
  | EmptyString => true
  end.

(** The text is empty or starts with a character that fails [p]. *)
Definition stops (p : ascii -> bool) (s : string) : Prop :=
  match s with
  | String c _ => p c = false
  | EmptyString => True
  end.

(** The class [[^/:]] of [DOMAIN_PATTERN]. *)
Definition host_char (c : ascii) : bool := negb ((c =? "/")%char || is_colon c).

(** The class [[^:]] of [DOMAIN_PATTERN]. *)
Definition scheme_char (c : ascii) : bool := negb (is_colon c).

(** Successive readings of the clock, none below [a] nor below the one
    before it. *)
Fixpoint ticking (a : spec_float) (clock : list spec_float) : bool :=
  match clock with
  | b :: clock' => ticks a b && ticking b clock'
  | [] => true
  end.

(** The rate limits whose key is [k]. *)
Definition with_key (k : string) (x : RateLimit) : bool := sort_key x =? k.

(** No element of the registry has a key below that of the next one. *)
Definition not_below (x y : RateLimit) : Prop := (sort_key x <? sort_key y) = false.

(** With a single worker the rows follow the lines: the urls of the rows
    written, the url the worker is suspended on and the lines not yet read
    are the lines of the file, in their order; and once the worker has
    returned, the file is at its end. *)
Definition in_order (text : string) (p : pool) : Prop :=
  exists w done,
    workers p = [w]
    /\ rows (output p) = map answer done
    /\ (map fst done ++ pending w ++ map strip (lines (file p)))%list
       = map strip (lines text)
    /\ (exited w = true -> file p = EmptyString).

(** The text starts with a character a host may hold. *)
Definition has_host (s : string) : bool :=
  match s with
  | String c _ => host_char c
  | EmptyString => false
  end.

(** The rate limit of [--rate example.com:8080]: 8080 requests per second to
    example.com, and not a rate for the port 8080. *)
Definition rate_of_port : RateLimit :=
  {| domain := Some "example.com"; rate := float_of_int 8080;
     interval := PyFloat (SFdiv prec emax (float_of_int 1) (float_of_int 8080));
     last_use := PyInt 0 |}.

(** Two workers on the file of two lines, each suspended on its request,
    while the first is being answered: the pool after five stretches of
    [two_workers]. *)
Definition suspended_pair : pool :=
  {| file := EmptyString;
     workers := [Loop (flt 0 0); Await (flt 0 0) "b.example"];
     output := [Write ["Status:200"; " <br><a href=a.example>a.example</br>"]] |}.

(** The pool that [one_worker_slow] leaves on the file of two lines. *)
Definition after_one_worker_slow : pool :=
  {| file := EmptyString;
     workers := [Exited];
     output := [Write ["Status:200"; " <br><a href=a.example>a.example</br>"]; Flush;
                Write ["Status:200"; " <br><a href=b.example>b.example</br>"]; Flush] |}.

(** The pool [before_blank] once the row of its blank line is written. *)
Definition after_blank : pool :=
  {| file := "c.example" ++ nl;
     workers := [Loop (flt 0 0)];
     output := [Write [EmptyString; "ERROR: " ++ no_group]] |}.

(** The rate limits of [--rate 10] and [--rate 10000000], for every domain. *)
Definition rate_ten : RateLimit :=
  {| domain := None; rate := float_of_int 10;
     interval := PyFloat (SFdiv prec emax (float_of_int 1) (float_of_int 10));
     last_use := PyInt 0 |}.

Definition rate_fast : RateLimit :=
  {| domain := None; rate := float_of_int 10000000;
     interval := PyFloat (SFdiv prec emax (float_of_int 1) (float_of_int 10000000));
     last_use := PyInt 0 |}.

(** Two readings of [time.time()]: 1700000000.0, and the float that lies
    419430 units in the last place above it, which is the float sum of
    1700000000.0 and 0.1; the two are 0.09999990463256836 apart. *)
Definition reading : spec_float := flt 7130316800000000 (-22).

Definition reading_later : spec_float := flt 7130316800419430 (-22).

(** Two tasks on [rate_ten]: the first acquires at [reading], the second
    finds the gate closed, sleeps, and acquires at [reading_later]. *)
Definition two_tasks_close : list (nat * spec_float * spec_float) :=
  [ (0%nat, reading, reading); (1%nat, reading, reading);
    (1%nat, reading_later, reading_later) ].

(** Three tasks on [rate_fast], each resumed once while the clock reads
    [reading]. *)
Definition three_tasks_at_once : list (nat * spec_float * spec_float) :=
  [ (0%nat, reading, reading); (1%nat, reading, reading); (2%nat, reading, reading) ].

(** ** The end of the script *)


(** The url starts with a scheme as [PROTOCOL_PATTERN] understands it: word
    characters, one at least, and [://]. *)
Definition has_scheme (url : string) : Prop :=
  exists scheme rest,
    url = scheme ++ "://" ++ rest
    /\ scheme <> EmptyString /\ all_chars is_word scheme = true.

(** * Properties *)

(** ** Text *)

Lemma length_append (a b : string) : length (a ++ b) = (length a + length b)%nat.
Proof. induction a as [|c a IH]; simpl; [reflexivity | now rewrite IH]. Qed.

Lemma substring_all (s : string) : substring 0 (length s) s = s.
Proof. induction s as [|c s IH]; simpl; [reflexivity | now rewrite IH]. Qed.

Lemma substring_skip (p s : string) (n : nat) :
  substring (length p) n (p ++ s) = substring 0 n s.
Proof. induction p as [|c p IH]; simpl; [reflexivity | exact IH]. Qed.

Lemma substring_split (s : string) (n : nat) :
  (n <= length s)%nat -> s = substring 0 n s ++ substring n (length s - n) s.
Proof.
  revert n; induction s as [|c s IH]; intros [|n] H; simpl in *;
    try reflexivity; try lia.
  - now rewrite substring_all.
  - rewrite <- IH by lia.
    destruct n; simpl; reflexivity.
Qed.

Lemma endswith_iff (s suffix : string) :
  endswith s suffix = true <-> exists p, s = p ++ suffix.
Proof.
  unfold endswith; rewrite andb_true_iff, Nat.leb_le, String.eqb_eq; split.
  - intros [Hlen Hsub].
    exists (substring 0 (length s - length suffix) s).
    pose proof (substring_split s (length s - length suffix)) as E.
    replace (length s - (length s - length suffix))%nat with (length suffix) in E by lia.
    rewrite Hsub in E; apply E; lia.
  - intros [p ->]; rewrite length_append; split; [lia|].
    replace (length p + length suffix - length suffix)%nat with (length p) by lia.
    now rewrite substring_skip, substring_all.
Qed.

(** ** RateLimit.matches *)

(** C8: a rate limit with a scope matches a domain exactly when the domain is
    the scope or ends with a dot followed by the scope; a rate limit with no
    domain (none given, or an empty one) matches every domain.  The scope
    example.com matches example.com and api.example.com and does not match
    notexample.com. *)
Theorem matches_scope_or_subdomain :
  (forall r scope d, domain r = Some scope -> scope <> EmptyString ->
     (matches r d = true <-> d = scope \/ exists p, d = p ++ "." ++ scope))
  /\ (forall r d, no_domain r = true -> matches r d = true)
  /\ (forall r, domain r = Some "example.com" ->
        matches r "example.com" = true
        /\ matches r "api.example.com" = true
        /\ matches r "notexample.com" = false).
Proof.
  split; [|split].
  - intros r scope d Hd Hne; unfold matches; rewrite Hd.
    destruct (String.eqb_spec scope EmptyString) as [E|_]; [contradiction|].
    rewrite orb_true_iff, String.eqb_eq, endswith_iff; reflexivity.
  - intros r d; unfold no_domain, matches.
    destruct (domain r) as [scope|]; [|reflexivity].
    now intros ->.
  - intros r Hd; unfold matches; rewrite Hd; repeat split; reflexivity.
Qed.

(** The scope example.com and the domain api.example.com. *)
Lemma matches_scope_or_subdomain_witness :
  matches rate_example "api.example.com" = true.
Proof.
  apply (proj1 matches_scope_or_subdomain rate_example "example.com" "api.example.com").
  - reflexivity.
  - discriminate.
  - right; exists "api"; reflexivity.
Defined.

(** ** The order of the registry *)

Lemma ltb_empty (s : string) : (s <? EmptyString) = false.
Proof. destruct s; reflexivity. Qed.

Lemma empty_ltb (s : string) : (EmptyString <? s) = false -> s = EmptyString.
Proof. destruct s; [reflexivity | discriminate]. Qed.

Lemma no_domain_key (x : RateLimit) : no_domain x = true <-> sort_key x = EmptyString.
Proof.
  unfold no_domain, sort_key; destruct (domain x) as [d|]; [apply String.eqb_eq | tauto].
Qed.

Lemma insert_rate_permutation (x : RateLimit) (l : list RateLimit) :
  Permutation (insert_rate x l) (x :: l).
Proof.
  induction l as [|y l IH]; simpl; [reflexivity|].
  destruct (sort_key x <? sort_key y); [|reflexivity].
  rewrite IH; apply perm_swap.
Qed.

(** The sort keeps the rate limits given, each as many times as given. *)
Lemma sort_rates_permutation (rates : list RateLimit) : Permutation (sort_rates rates) rates.
Proof.
  induction rates as [|x rates IH]; simpl; [reflexivity|].
  now rewrite insert_rate_permutation, IH.
Qed.

Lemma insert_rate_catch_all_last (x : RateLimit) (l : list RateLimit) :
  catch_all_last l -> catch_all_last (insert_rate x l).
Proof.
  induction l as [|y l IH]; simpl; [intros _; split; trivial|].
  intros [Hy Hl]; destruct (sort_key x <? sort_key y) eqn:E; simpl.
  - split; [|now apply IH].
    intros Ny; apply no_domain_key in Ny; rewrite Ny, ltb_empty in E; discriminate.
  - split; [|now split].
    intros Nx; apply no_domain_key in Nx; rewrite Nx in E.
    apply empty_ltb, no_domain_key in E; rewrite E; simpl; now apply Hy.
Qed.

(** The part of the order that holds: in the sorted registry the rate limits
    with no domain come last. *)
Lemma sort_rates_catch_all_last (rates l1 l2 : list RateLimit) (x : RateLimit) :
  sort_rates rates = (l1 ++ x :: l2)%list ->
  no_domain x = true ->
  forallb no_domain l2 = true.
Proof.
  assert (H : catch_all_last (sort_rates rates)).
  { induction rates as [|y rates IH]; simpl; [trivial|].
    now apply insert_rate_catch_all_last. }
  intros E; rewrite E in H; clear E.
  induction l1 as [|y l1 IH]; simpl in H; [tauto | apply IH; tauto].
Qed.

(** C2, on the code: the sort compares the domains as text, not by length.
    With the rules for example.com and api.example.com, the shorter domain
    comes first whatever the order they are given in, and a request to
    api.example.com, which both rules match, is given the rule of
    example.com. *)
Theorem sort_rates_puts_shorter_domain_first :
  sort_rates [rate_example; rate_api] = [rate_example; rate_api]
  /\ sort_rates [rate_api; rate_example] = [rate_example; rate_api]
  /\ map (fun x => length (sort_key x)) (sort_rates [rate_api; rate_example]) = [11; 15]%nat
  /\ matches rate_api "api.example.com" = true
  /\ matches rate_example "api.example.com" = true
  /\ rate_lock (sort_rates [rate_api; rate_example]) "api.example.com" = Some rate_example
  /\ gate_of (sort_rates [rate_api; rate_example]) "https://api.example.com/status"
     = Some rate_example.
Proof. repeat split; reflexivity. Qed.

(** ** Lists and lines *)

Lemma nth_error_update_same {A} (l : list A) i x y :
  nth_error l i = Some y -> nth_error (update i x l) i = Some x.
Proof.
  revert i; induction l as [|a l IH]; intros [|i] H; simpl in *;
    try discriminate; [reflexivity | now apply IH].
Qed.

Lemma nth_error_update_other {A} (l : list A) i j x :
  i <> j -> nth_error (update i x l) j = nth_error l j.
Proof.
  revert i j; induction l as [|a l IH]; intros [|i] [|j] H; simpl;
    try reflexivity; try congruence.
  apply IH; congruence.
Qed.

Lemma length_update {A} (l : list A) i x : List.length (update i x l) = List.length l.
Proof.
  revert i; induction l as [|a l IH]; intros [|i]; simpl; try reflexivity.
  now rewrite IH.
Qed.

Lemma rows_app (a b : list event) : rows (a ++ b) = (rows a ++ rows b)%list.
Proof.
  induction a as [|[row|] a IH]; simpl; [reflexivity | now rewrite IH | exact IH].
Qed.

Lemma readline_length (text : string) :
  length text = (length (fst (readline text)) + length (snd (readline text)))%nat.
Proof.
  induction text as [|c text IH]; simpl; [reflexivity|].
  destruct (c =? "010")%char; simpl; [reflexivity|].
  destruct (readline text) as [l rest]; simpl in *; now rewrite IH.
Qed.

Lemma readline_eof (text : string) :
  fst (readline text) = EmptyString -> text = EmptyString /\ snd (readline text) = EmptyString.
Proof.
  destruct text as [|c text]; simpl; [now split|].
  destruct (c =? "010")%char; simpl; [discriminate|].
  destruct (readline text); simpl; discriminate.
Qed.

Lemma lines_upto_enough (n : nat) (text : string) :
  (length text <= n)%nat -> lines_upto n text = lines text.
Proof.
  unfold lines; remember (length text) as m eqn:Hm.
  revert n text Hm; induction m as [m IH] using lt_wf_ind; intros n text Hm Hn.
  destruct text as [|c text]; [subst m; destruct n; reflexivity|].
  destruct n as [|n]; [simpl in Hm; lia|].
  destruct m as [|m]; [discriminate|].
  pose proof (readline_length (String c text)) as L.
  cbn [lines_upto].
  destruct (readline (String c text)) as [line rest] eqn:R; simpl in L.
  destruct (line =? EmptyString) eqn:E; [reflexivity|].
  apply String.eqb_neq in E.
  assert (length line <> 0)%nat by (destruct line; simpl; congruence).
  f_equal; simpl in Hm.
  transitivity (lines_upto (length rest) rest);
    [|symmetry]; apply (IH (length rest)); try reflexivity; lia.
Qed.

Lemma lines_eof : lines EmptyString = [].
Proof. reflexivity. Qed.

Lemma lines_readline (text line rest : string) :
  readline text = (line, rest) -> line <> EmptyString -> lines text = line :: lines rest.
Proof.
  intros R Hne.
  pose proof (readline_length text) as L; rewrite R in L; simpl in L.
  destruct text as [|c text]; [simpl in R; congruence|].
  unfold lines at 1; cbn [length lines_upto]; rewrite R.
  apply String.eqb_neq in Hne; rewrite Hne; f_equal.
  apply lines_upto_enough.
  apply String.eqb_neq in Hne.
  assert (length line <> 0)%nat by (destruct line; simpl; congruence).
  simpl in L; lia.
Qed.

(** ** Runs of the pool *)

Lemma run_invariant (P : pool -> Prop) :
  (forall i now head p p', P p -> step i now head p = Some p' -> P p') ->
  forall schedule p p', P p -> run schedule p = Some p' -> P p'.
Proof.
  intros Hstep schedule; induction schedule as [|[[i now] head] schedule IH];
    simpl; intros p p' HP Hrun.
  - now injection Hrun as <-.
  - destruct (step i now head p) as [q|] eqn:S; [|discriminate].
    eapply IH; [|exact Hrun]; eapply Hstep; eassumption.
Qed.

Lemma step_inv i now head p p' :
  step i now head p = Some p' ->
  exists w rest w' events,
    nth_error (workers p) i = Some w
    /\ worker now head (file p) w = Some (rest, w', events)
    /\ p' = {| file := rest; workers := update i w' (workers p);
               output := output p ++ events |}.
Proof.
  unfold step; destruct (nth_error (workers p) i) as [w|]; [|discriminate].
  destruct (worker now head (file p) w) as [[[rest w'] events]|] eqn:W; [|discriminate].
  intros [= <-]; now exists w, rest, w', events.
Qed.

Lemma awaiting_update ws i w w' :
  nth_error ws i = Some w ->
  Permutation (pending w' ++ awaiting ws) (pending w ++ awaiting (update i w' ws)).
Proof.
  revert i; induction ws as [|a ws IH]; intros [|i] H; simpl in *; try discriminate.
  - injection H as ->; apply Permutation_app_swap_app.
  - rewrite Permutation_app_swap_app, (IH i H), Permutation_app_swap_app; reflexivity.
Qed.

Lemma weight_update ws i w w' :
  nth_error ws i = Some w ->
  (list_sum (map weight (update i w' ws)) + weight w
   = list_sum (map weight ws) + weight w')%nat.
Proof.
  revert i; induction ws as [|a ws IH]; intros [|i] H; simpl in *; try discriminate.
  - injection H as ->; lia.
  - specialize (IH i H); lia.
Qed.

Lemma exited_update ws i w w' :
  nth_error ws i = Some w ->
  existsb exited (update i w' ws) = true ->
  exited w' = true \/ existsb exited ws = true.
Proof.
  revert i; induction ws as [|a ws IH]; intros [|i] H; simpl in *; try discriminate;
    rewrite !orb_true_iff.
  - intros [E|E]; auto.
  - intros [E|E]; auto. destruct (IH i H E); auto.
Qed.

Lemma served_step text i now head p p' :
  served text p -> step i now head p = Some p' -> served text p'.
Proof.
  intros (done & Hrows & Hperm & Heof) Hstep.
  destruct (step_inv _ _ _ _ _ Hstep) as (w & rest & w' & events & Hw & Hwork & ->).
  pose proof (awaiting_update _ _ _ w' Hw) as Haw.
  unfold served; simpl.
  destruct w as [|st|st url|]; simpl in Hwork; try discriminate.
  - (* the worker starts *)
    injection Hwork as <- <- <-; exists done; simpl in *.
    rewrite app_nil_r, <- Haw; repeat split; trivial.
    intros E; destruct (exited_update _ _ _ _ Hw E); [discriminate | auto].
  - (* the worker reads a line *)
    destruct (readline (file p)) as [line rest0] eqn:R.
    destruct (line =? EmptyString) eqn:E; injection Hwork as <- <- <-;
      exists done; simpl in *; rewrite app_nil_r.
    + apply String.eqb_eq in E; subst line.
      destruct (readline_eof (file p)) as [Hfile Hrest]; [now rewrite R|].
      rewrite R in Hrest; simpl in Hrest; subst rest0.
      rewrite Hfile in Hperm; rewrite <- Haw; repeat split; trivial.
    + apply String.eqb_neq in E.
      rewrite (lines_readline _ _ _ R E) in Hperm; simpl in Hperm.
      repeat split; trivial.
      * rewrite <- Hperm, <- Haw; simpl.
        apply Permutation_app_head, Permutation_middle.
      * intros X; destruct (exited_update _ _ _ _ Hw X) as [|X']; [discriminate|].
        specialize (Heof X'); rewrite Heof in R; simpl in R; congruence.
  - (* the worker writes the row of the url it was suspended on *)
    injection Hwork as <- <- <-; exists (done ++ [(url, head)])%list; simpl in *.
    repeat split.
    + rewrite rows_app, map_app, Hrows; simpl.
      now destruct (flush_due st now).
    + rewrite map_app, <- app_assoc, <- Hperm; simpl.
      apply Permutation_app_head; symmetry.
      apply (Permutation_app_tail (map strip (lines (file p))) Haw).
    + intros E; destruct (exited_update _ _ _ _ Hw E); [discriminate | auto].
Qed.

Lemma stretches_step i now head p p' :
  step i now head p = Some p' -> stretches p = S (stretches p').
Proof.
  intros Hstep.
  destruct (step_inv _ _ _ _ _ Hstep) as (w & rest & w' & events & Hw & Hwork & ->).
  pose proof (weight_update _ _ _ w' Hw) as Hsum.
  unfold stretches; simpl.
  destruct w as [|st|st url|]; simpl in Hwork; try discriminate.
  - injection Hwork as <- <- <-; simpl in Hsum; lia.
  - destruct (readline (file p)) as [line rest0] eqn:R.
    destruct (line =? EmptyString) eqn:E; injection Hwork as <- <- <-; simpl in Hsum.
    + apply String.eqb_eq in E; subst line.
      destruct (readline_eof (file p)) as [Hfile Hrest]; [now rewrite R|].
      rewrite R in Hrest; simpl in Hrest; subst rest0; rewrite Hfile; simpl; lia.
    + apply String.eqb_neq in E.
      rewrite (lines_readline _ _ _ R E); simpl; lia.
  - injection Hwork as <- <- <-; simpl in Hsum; lia.
Qed.

Lemma stretches_run schedule p p' :
  run schedule p = Some p' -> stretches p = (List.length schedule + stretches p')%nat.
Proof.
  revert p; induction schedule as [|[[i now] head] schedule IH]; simpl; intros p Hrun.
  - now injection Hrun as <-.
  - destruct (step i now head p) as [q|] eqn:S; [|discriminate].
    rewrite (stretches_step _ _ _ _ _ S), (IH _ Hrun); reflexivity.
Qed.

Lemma stretches_start n text :
  stretches (start n text) = (2 * n + 2 * List.length (lines text))%nat.
Proof.
  unfold stretches, start; simpl; f_equal.
  induction n as [|n IH]; simpl; [reflexivity | rewrite IH; lia].
Qed.

Lemma step_length i now head p p' :
  step i now head p = Some p' -> List.length (workers p') = List.length (workers p).
Proof.
  intros Hstep.
  destruct (step_inv _ _ _ _ _ Hstep) as (w & rest & w' & events & _ & _ & ->).
  apply length_update.
Qed.

Lemma some_not_exited ws :
  forallb exited ws = false -> exists i w, nth_error ws i = Some w /\ exited w = false.
Proof.
  induction ws as [|w ws IH]; simpl; [discriminate|].
  destruct (exited w) eqn:E; simpl.
  - intros H; destruct (IH H) as (i & w' & Hi & Hw); now exists (S i), w'.
  - intros _; now exists 0%nat, w.
Qed.

Lemma not_complete_resumable p :
  complete p = false -> exists i, forall now head, step i now head p <> None.
Proof.
  intros H; destruct (some_not_exited _ H) as (i & w & Hi & Hw).
  exists i; intros now head; unfold step; rewrite Hi.
  destruct w; simpl; try discriminate.
  destruct (readline (file p)) as [line rest].
  destruct (line =? EmptyString); discriminate.
Qed.

Lemma complete_nothing_awaited ws : forallb exited ws = true -> awaiting ws = [].
Proof.
  induction ws as [|w ws IH]; simpl; [reflexivity|].
  rewrite andb_true_iff; intros [E H]; rewrite (IH H).
  destruct w; try discriminate; reflexivity.
Qed.

Lemma complete_some_exited ws :
  ws <> [] -> forallb exited ws = true -> existsb exited ws = true.
Proof.
  destruct ws as [|w ws]; [congruence|]; simpl.
  rewrite andb_true_iff; intros _ [-> _]; reflexivity.
Qed.

Lemma Permutation_filter {A} (f : A -> bool) (l l' : list A) :
  Permutation l l' -> Permutation (filter f l) (filter f l').
Proof.
  induction 1 as [|x l l' _ IH|x y l|l l' l'' _ IH1 _ IH2]; simpl.
  - constructor.
  - destruct (f x); [constructor|]; exact IH.
  - destruct (f x), (f y); try reflexivity; constructor.
  - etransitivity; eassumption.
Qed.

Lemma filter_nonempty_strip (l : list string) :
  filter nonempty (map strip l) = map strip (filter (fun line => negb (blank line)) l).
Proof.
  induction l as [|line l IH]; simpl; [reflexivity|].
  unfold nonempty at 1, blank at 1.
  destruct (strip line =? EmptyString); simpl; now rewrite IH.
Qed.

(** Whatever state a pool is in, resuming its workers brings it to
    completion, provided each request gets a reply. *)
Lemma run_can_complete (p : pool) :
  exists schedule q, run schedule p = Some q /\ complete q = true.
Proof.
  remember (stretches p) as m eqn:Hm.
  revert p Hm; induction m as [m IH] using lt_wf_ind; intros p Hm.
  destruct (complete p) eqn:C; [now exists [], p|].
  destruct (not_complete_resumable p C) as [i Hi].
  destruct (step i zero (Return 0) p) as [p'|] eqn:S; [|now destruct (Hi zero (Return 0))].
  pose proof (stretches_step _ _ _ _ _ S) as Hs.
  destruct (IH (stretches p')) with (p := p') as (schedule & q & Hrun & Hq);
    [lia | reflexivity |].
  exists (resume i zero (Return 0) :: schedule), q; simpl; now rewrite S.
Qed.

Lemma awaiting_fresh n : awaiting (repeat Fresh n) = [].
Proof. induction n as [|n IH]; simpl; [reflexivity | exact IH]. Qed.

Lemma exited_fresh n : existsb exited (repeat Fresh n) = false.
Proof. induction n as [|n IH]; simpl; [reflexivity | exact IH]. Qed.

(** C1: with one worker or more, whatever the order in which the event loop
    resumes the workers and whatever the replies, a run that completes has
    written exactly one row for each line of the input, so for each line that
    is not blank: the urls of the rows written are, up to their order, the
    trimmed lines of the file.  A run that is not complete can always go on,
    no run is longer than two stretches for each worker and each line, and
    every run can be brought to completion. *)
Theorem one_row_per_line :
  forall n text schedule p,
    (1 <= n)%nat ->
    run schedule (start n text) = Some p ->
    (complete p = true ->
     exists done : list (string * result Z),
       rows (output p) = map answer done
       /\ Permutation (map fst done) (map strip (lines text))
       /\ Permutation (filter nonempty (map fst done))
                      (map strip (filter (fun line => negb (blank line)) (lines text))))
    /\ (complete p = false -> exists i, forall now head, step i now head p <> None)
    /\ (List.length schedule <= 2 * n + 2 * List.length (lines text))%nat
    /\ (exists schedule' q, run schedule' p = Some q /\ complete q = true).
Proof.
  intros n text schedule p Hn Hrun; split; [|split; [|split]].
  - intros Hc.
    assert (Hserved : served text p).
    { apply (run_invariant (served text) (served_step text) _ _ _) with (2 := Hrun).
      exists []; simpl; rewrite awaiting_fresh, exited_fresh; repeat split; trivial.
      discriminate. }
    assert (Hlen : List.length (workers p) = n).
    { apply (run_invariant (fun q => List.length (workers q) = n)) with (3 := Hrun).
      - intros i now head q q' Hq S; now rewrite (step_length _ _ _ _ _ S).
      - apply repeat_length. }
    destruct Hserved as (done & Hrows & Hperm & Heof).
    unfold complete in Hc.
    rewrite (complete_nothing_awaited _ Hc), Heof in Hperm.
    + simpl in Hperm; rewrite app_nil_r in Hperm.
      exists done; repeat split; trivial.
      rewrite <- filter_nonempty_strip; now apply Permutation_filter.
    + apply complete_some_exited; trivial.
      intros E; rewrite E in Hlen; simpl in Hlen; lia.
  - apply not_complete_resumable.
  - pose proof (stretches_run _ _ _ Hrun) as H.
    rewrite stretches_start in H; lia.
  - apply run_can_complete.
Qed.

(** Two workers on a file of two lines. *)
Lemma one_row_per_line_witness :
  exists done : list (string * result Z),
    [ ["Status:200"; " <br><a href=a.example>a.example</br>"];
      ["b.example"; "ERROR: timed out"] ] = map answer done
    /\ Permutation (map fst done) ["a.example"; "b.example"].
Proof.
  eassert (R : run two_workers (start 2 two_lines) = Some _) by (vm_compute; reflexivity).
  destruct (one_row_per_line 2 two_lines two_workers _ (le_S _ _ (le_n 1)) R) as [H _].
  destruct (H eq_refl) as (done & Hrows & Hperm & _).
  exists done; split; [exact Hrows | exact Hperm].
Defined.

(** ** The rows of a worker *)

Lemma step_await p i start_time url now head :
  nth_error (workers p) i = Some (Await start_time url) ->
  step i now head p
  = Some {| file := file p; workers := update i (Loop start_time) (workers p);
            output := output p
                      ++ written (row_of url (get_status head url), flush_due start_time now) |}.
Proof. intros H; unfold step; rewrite H; reflexivity. Qed.

Lemma rows_written entry : rows (written entry) = [fst entry].
Proof. destruct entry as [row []]; reflexivity. Qed.




(** C4, on the code: after a request for example.com answered 200, the row
    written has two fields, the first of which is the text Status:200 and
    not the url, and the second an anchor around the url and not the status.
    The row written after an exception has the url first and the message
    second. *)
Theorem status_row_fields :
  forall start_time now file,
    worker now (Return 200) file (Await start_time "example.com")
    = Some (file, Loop start_time,
            written (["Status:200"; " <br><a href=example.com>example.com</br>"],
                     flush_due start_time now))
    /\ worker now (Raise (ClientError "timed out")) file (Await start_time "example.com")
       = Some (file, Loop start_time,
               written (["example.com"; "ERROR: timed out"], flush_due start_time now)).
Proof. intros; split; reflexivity. Qed.

(** C5, as stated, fails: one worker on a file of a single blank line runs to
    completion and has written a row for that line. *)
Lemma blank_line_not_skipped :
  lines nl = [nl] /\ blank nl = true
  /\ exists p,
       run one_worker (start 1 nl) = Some p
       /\ complete p = true
       /\ rows (output p) = [[EmptyString; "ERROR: 'NoneType' object has no attribute 'group'"]].
Proof.
  repeat split; eexists; repeat split; reflexivity.
Qed.

Lemma blank_has_no_domain (line : string) :
  blank line = true -> DOMAIN_PATTERN (normalize (strip line)) = None.
Proof. unfold blank; rewrite String.eqb_eq; intros ->; reflexivity. Qed.

(** C5, amended: a line that is empty once trimmed is not skipped.  The
    worker that reads it writes one row, with an empty first field and the
    message of the failed extraction of the domain after ERROR, whatever the
    replies; it is then back at the head of its loop, on the rest of the
    file. *)
Theorem blank_line_gets_error_row :
  forall p i start_time line rest now1 head1 now2 head2,
    nth_error (workers p) i = Some (Loop start_time) ->
    readline (file p) = (line, rest) ->
    line <> EmptyString ->
    blank line = true ->
    exists p',
      run [resume i now1 head1; resume i now2 head2] p = Some p'
      /\ rows (output p') = (rows (output p) ++ [[EmptyString; ("ERROR: " ++ no_group)%string]])%list
      /\ nth_error (workers p') i = Some (Loop start_time)
      /\ file p' = rest.
Proof.
  intros p i st line rest now1 head1 now2 head2 Hw R Hne Hb.
  assert (Hi : forall w, nth_error (update i w (workers p)) i = Some w)
    by (intros w; eapply nth_error_update_same; exact Hw).
  apply String.eqb_neq in Hne.
  unfold run, resume, step at 1; rewrite Hw; simpl; rewrite R, Hne.
  rewrite step_await with (start_time := st) (url := strip line) by apply Hi.
  eexists; split; [reflexivity|]; simpl; repeat split.
  - rewrite app_nil_r, rows_app, rows_written; simpl.
    unfold get_status; rewrite (blank_has_no_domain _ Hb).
    unfold blank in Hb; apply String.eqb_eq in Hb; rewrite Hb; reflexivity.
  - eapply nth_error_update_same; apply Hi.
Qed.

(** A blank line before the line of c.example. *)
Lemma blank_line_gets_error_row_witness :
  exists p',
    run [resume 0 (flt 1 0) (Return 200); resume 0 (flt 1 0) (Return 200)] before_blank = Some p'
    /\ rows (output p') = [[EmptyString; "ERROR: " ++ no_group]]
    /\ nth_error (workers p') 0 = Some (Loop (flt 0 0))
    /\ file p' = "c.example" ++ nl.
Proof.
  apply (blank_line_gets_error_row before_blank 0 (flt 0 0) nl ("c.example" ++ nl)
           (flt 1 0) (Return 200) (flt 1 0) (Return 200) eq_refl eq_refl).
  - discriminate.
  - reflexivity.
Defined.

(** ** Flushes *)

(** The workers make no flush of their own at their return: one worker on
    a file of one line, its request answered one second after it started,
    runs to completion; the row is written and no worker has flushed. *)
Lemma workers_make_no_final_flush :
  exists p,
    run one_worker (start 1 ("example.com" ++ nl)) = Some p
    /\ complete p = true
    /\ output p = [Write ["Status:200"; " <br><a href=example.com>example.com</br>"]].
Proof. eexists; repeat split; reflexivity. Qed.

Lemma written_step i now head p p' :
  step i now head p = Some p' ->
  output p' = output p
  \/ exists start_time url,
       nth_error (workers p) i = Some (Await start_time url)
       /\ output p' = (output p
                       ++ written (row_of url (get_status head url), flush_due start_time now))%list.
Proof.
  intros Hstep.
  destruct (step_inv _ _ _ _ _ Hstep) as (w & rest & w' & events & Hw & Hwork & ->); simpl.
  destruct w as [|st|st url|]; simpl in Hwork; try discriminate.
  - injection Hwork as <- <- <-; left; apply app_nil_r.
  - destruct (readline (file p)) as [line rest0].
    destruct (line =? EmptyString); injection Hwork as <- <- <-; left; apply app_nil_r.
  - injection Hwork as <- <- <-; right; now exists st, url.
Qed.

(** The events of the workers are rows, each followed by one flush or by
    none. *)
Lemma run_output_entries (n : nat) (text : string) (schedule : list resumption) (p : pool) :
  run schedule (start n text) = Some p ->
  exists entries, output p = flat_map written entries.
Proof.
  intros Hrun.
  apply (run_invariant (fun q => exists entries, output q = flat_map written entries))
    with (3 := Hrun); [|now exists []].
  intros i now head q q' [entries He] Hstep.
  destruct (written_step _ _ _ _ _ Hstep) as [->|(st & url & _ & ->)].
  - now exists entries.
  - eexists (entries ++ [_])%list; rewrite flat_map_app, He; simpl.
    now rewrite app_nil_r.
Qed.

(** X21: the flushes of the workers come at once after a row and nowhere
    else.  In every run the events of the workers are a sequence of rows,
    each followed by one flush or by none, and the stretch in which a worker
    returns writes nothing and flushes nothing. *)
Theorem flush_only_after_a_row :
  forall n text schedule p,
    run schedule (start n text) = Some p ->
    (exists entries, output p = flat_map written entries)
    /\ (forall i now head p',
          step i now head p = Some p' ->
          nth_error (workers p') i = Some Exited ->
          output p' = output p).
Proof.
  intros n text schedule p Hrun; split.
  - exact (run_output_entries n text schedule p Hrun).
  - intros i now head p' Hstep Hexit.
    destruct (written_step _ _ _ _ _ Hstep) as [->|(st & url & Hw & _)]; [reflexivity|].
    rewrite (step_await _ _ _ _ now head Hw) in Hstep; injection Hstep as <-.
    simpl in Hexit; rewrite (nth_error_update_same _ _ _ _ Hw) in Hexit; discriminate.
Qed.

(** The output of two workers on a file of two lines. *)
Lemma flush_only_after_a_row_witness :
  exists entries,
    [Write ["Status:200"; " <br><a href=a.example>a.example</br>"];
     Write ["b.example"; "ERROR: timed out"]] = flat_map written entries.
Proof.
  eassert (R : run two_workers (start 2 two_lines) = Some _) by (vm_compute; reflexivity).
  exact (proj1 (flush_only_after_a_row 2 two_lines two_workers _ R)).
Defined.





(** C7, as stated, fails: one worker started at time 0 writes two rows, at
    the times 3 and 3.5, and flushes after each of them, the second flush
    half a second after the first; a sink that flushes when more than 2
    seconds have passed since its last flush makes the first flush only. *)
Lemma flush_not_since_last_flush :
  exists p,
    run one_worker_slow (start 1 two_lines) = Some p
    /\ complete p = true
    /\ flushes (output p) = [true; true]
    /\ sink_flushes (flt 0 0) [flt 3 0; flt 7 (-1)] = [true; false].
Proof. eexists; repeat split; reflexivity. Qed.

(** C7, amended: a worker flushes after writing a row exactly when more than
    2 seconds have passed since that worker started.  Its [start_time] is
    the reading of the clock it took when it started and is its own: no
    stretch of any worker changes the [start_time] of a worker that has one,
    until that worker returns. *)
Theorem flush_measured_from_worker_start :
  forall p i now head,
    (forall start_time url,
       nth_error (workers p) i = Some (Await start_time url) ->
       exists p',
         step i now head p = Some p'
         /\ output p' = (output p
                         ++ Write (row_of url (get_status head url))
                            :: (if flush_due start_time now then [Flush] else []))%list
         /\ nth_error (workers p') i = Some (Loop start_time))
    /\ (nth_error (workers p) i = Some Fresh ->
        exists p', step i now head p = Some p'
                   /\ nth_error (workers p') i = Some (Loop now))
    /\ (forall p' j w start_time,
          step i now head p = Some p' ->
          nth_error (workers p) j = Some w ->
          start_time_of w = Some start_time ->
          exists w', nth_error (workers p') j = Some w'
                     /\ (w' = Exited \/ start_time_of w' = Some start_time)).
Proof.
  intros p i now head; split; [|split].
  - intros st url Hw; eexists; split; [apply step_await; exact Hw|]; simpl.
    split; [reflexivity | eapply nth_error_update_same; exact Hw].
  - intros Hw; unfold step; rewrite Hw; simpl.
    eexists; split; [reflexivity|]; simpl.
    eapply nth_error_update_same; exact Hw.
  - intros p' j w st Hstep Hj Hst.
    destruct (step_inv _ _ _ _ _ Hstep) as (v & rest & v' & events & Hv & Hwork & ->); simpl.
    destruct (Nat.eq_dec i j) as [<-|Hij].
    + rewrite Hv in Hj; injection Hj as ->.
      exists v'; split; [eapply nth_error_update_same; exact Hv|].
      destruct w as [|st'|st' url|]; simpl in Hwork, Hst; try discriminate.
      * destruct (readline (file p)) as [line rest0].
        destruct (line =? EmptyString); injection Hwork as <- <- <-; auto.
      * injection Hwork as <- <- <-; auto.
    + exists w; rewrite nth_error_update_other by exact Hij; auto.
Qed.

(** A row written one second after the worker started. *)
Lemma flush_measured_from_worker_start_witness :
  exists p',
    step 0 (flt 1 0) (Return 200) suspended = Some p'
    /\ output p' = [Write ["Status:200"; " <br><a href=b.example>b.example</br>"]]
    /\ nth_error (workers p') 0 = Some (Loop (flt 0 0)).
Proof.
  exact (proj1 (flush_measured_from_worker_start suspended 0 (flt 1 0) (Return 200))
           (flt 0 0) "b.example" eq_refl).
Defined.

(** ** Binary64 arithmetic *)

Lemma emin_eq : emin = -1074.
Proof. reflexivity. Qed.

Lemma fexp_eq e : fexp prec emax e = Z.max (e - 53) (-1074).
Proof. reflexivity. Qed.

Lemma digits2_bounds (m : positive) :
  2 ^ (Zpos (digits2_pos m) - 1) <= Zpos m < 2 ^ Zpos (digits2_pos m).
Proof.
  induction m as [m IH|m IH|]; cbn [digits2_pos]; [| |simpl; lia];
    rewrite Pos2Z.inj_succ;
    replace (Z.succ (Zpos (digits2_pos m)) - 1) with (Z.succ (Zpos (digits2_pos m) - 1)) by lia;
    rewrite !Z.pow_succ_r by lia; lia.
Qed.

Lemma iter_xO (m d : positive) : Zpos (Pos.iter xO m d) = Zpos m * 2 ^ Zpos d.
Proof.
  induction d as [|d IH] using Pos.peano_ind.
  - simpl; lia.
  - rewrite Pos.iter_succ, Pos2Z.inj_succ, Z.pow_succ_r by lia.
    rewrite Pos2Z.inj_xO, IH; lia.
Qed.

Lemma shl_align_value (m : positive) (e e' : Z) :
  e' <= e -> Zpos (fst (shl_align m e e')) = Zpos m * 2 ^ (e - e').
Proof.
  intros H; unfold shl_align.
  destruct (e' - e) as [|d|d] eqn:E; cbn [fst]; try lia.
  - replace (e - e') with 0 by lia; rewrite Z.pow_0_r; lia.
  - rewrite iter_xO; f_equal; f_equal; lia.
Qed.

Lemma shl_align_exponent (m : positive) (e e' : Z) :
  snd (shl_align m e e') = Z.min e e'.
Proof.
  unfold shl_align; destruct (e' - e) as [|d|d] eqn:E; simpl; lia.
Qed.

Lemma shr_record_of_loc_m (m : Z) (l : location) : shr_m (shr_record_of_loc m l) = m.
Proof. destruct l as [|[]]; reflexivity. Qed.

Lemma shr_1_m (mrs : shr_record) : 0 <= shr_m mrs -> shr_m (shr_1 mrs) = shr_m mrs / 2.
Proof.
  rewrite <- Z.div2_div; destruct mrs as [m r s]; simpl.
  destruct m as [|[p|p|]|p]; intros H; try reflexivity; lia.
Qed.

Lemma iter_shr_m (p : positive) :
  forall mrs, 0 <= shr_m mrs ->
    shr_m (iter_pos shr_1 p mrs) = shr_m mrs / 2 ^ Zpos p.
Proof.
  assert (P : forall k, 0 < 2 ^ Zpos k) by (intros k; apply Z.pow_pos_nonneg; lia).
  induction p as [p IH|p IH|]; intros mrs H; cbn [iter_pos].
  - assert (H1 : 0 <= shr_m (shr_1 mrs)) by (rewrite shr_1_m by exact H; apply Z.div_pos; lia).
    assert (H2 : 0 <= shr_m (iter_pos shr_1 p (shr_1 mrs)))
      by (rewrite IH by exact H1; apply Z.div_pos; [exact H1 | apply P]).
    rewrite IH by exact H2; rewrite IH by exact H1; rewrite shr_1_m by exact H.
    pose proof (P p).
    rewrite !Z.div_div by lia.
    f_equal; rewrite Pos2Z.inj_xI.
    replace (2 * Zpos p + 1) with (1 + Zpos p + Zpos p) by lia.
    rewrite !Z.pow_add_r, Z.pow_1_r by lia; ring.
  - assert (H1 : 0 <= shr_m (iter_pos shr_1 p mrs))
      by (rewrite IH by exact H; apply Z.div_pos; [exact H | apply P]).
    rewrite IH by exact H1; rewrite IH by exact H.
    pose proof (P p).
    rewrite Z.div_div by lia.
    f_equal; rewrite <- Z.pow_add_r by lia; f_equal; lia.
  - rewrite shr_1_m by exact H; reflexivity.
Qed.

Lemma shr_fexp_low (m e : Z) (l : location) : emin <= snd (shr_fexp prec emax m e l).
Proof.
  unfold shr_fexp, shr; rewrite fexp_eq, emin_eq.
  destruct (Z.max (Zdigits2 m + e - 53) (-1074) - e) as [|n|n] eqn:N; simpl; lia.
Qed.

Lemma shr_fexp_pos (m e : Z) (l : location) :
  0 < m -> emin <= e -> 0 < shr_m (fst (shr_fexp prec emax m e l)).
Proof.
  rewrite emin_eq; intros Hm He; unfold shr_fexp, shr; rewrite fexp_eq.
  destruct (Z.max (Zdigits2 m + e - 53) (-1074) - e) as [|n|n] eqn:N; simpl;
    try (rewrite shr_record_of_loc_m; exact Hm).
  rewrite iter_shr_m by (rewrite shr_record_of_loc_m; lia).
  rewrite shr_record_of_loc_m.
  destruct m as [|q|q]; try lia; cbn [Zdigits2] in N.
  apply Z.div_str_pos; split; [apply Z.pow_pos_nonneg; lia|].
  pose proof (digits2_bounds q) as [B _].
  etransitivity; [|exact B].
  apply Z.pow_le_mono_r; lia.
Qed.

Lemma round_nearest_even_pos (m : Z) (l : location) : 0 < m -> 0 < round_nearest_even m l.
Proof.
  intros H; destruct l as [|[]]; simpl; try lia.
  destruct (Z.even m); lia.
Qed.

(** What a rounding returns: a value of the sign asked for, or a NaN; its
    exponent is not below the least one. *)
Lemma binary_round_aux_sign (sx : bool) (m e : Z) (l : location) :
  match binary_round_aux prec emax sx m e l with
  | S754_zero s | S754_infinity s => s = sx
  | S754_finite s _ e' => s = sx /\ emin <= e'
  | S754_nan => True
  end.
Proof.
  unfold binary_round_aux.
  destruct (shr_fexp prec emax m e l) as [mrs' e'].
  pose proof (shr_fexp_low (round_nearest_even (shr_m mrs') (loc_of_shr_record mrs')) e' loc_Exact) as L.
  destruct (shr_fexp prec emax _ e' loc_Exact) as [mrs'' e'']; simpl in L.
  destruct (shr_m mrs''); trivial.
  destruct (e'' <=? emax - prec)%Z; auto.
Qed.

(** A positive integer that is a multiple of the least unit does not round
    to zero. *)
Lemma binary_round_aux_pos (m e : Z) (l : location) :
  0 < m -> emin <= e -> SFltb zero (binary_round_aux prec emax false m e l) = true.
Proof.
  intros Hm He; unfold binary_round_aux.
  pose proof (shr_fexp_pos m e l Hm He) as P1.
  pose proof (shr_fexp_low m e l) as L1.
  destruct (shr_fexp prec emax m e l) as [mrs' e']; simpl in P1, L1.
  pose proof (shr_fexp_pos _ e' loc_Exact
                (round_nearest_even_pos _ (loc_of_shr_record mrs') P1) L1) as P2.
  destruct (shr_fexp prec emax _ e' loc_Exact) as [mrs'' e'']; simpl in P2.
  destruct (shr_m mrs''); try lia.
  destruct (e'' <=? emax - prec)%Z; reflexivity.
Qed.

Lemma binary_round_low (sx : bool) (m : positive) (e : Z) :
  low (binary_round prec emax sx m e).
Proof.
  unfold binary_round; destruct (shl_align m e _) as [mz ez].
  pose proof (binary_round_aux_sign sx (Zpos mz) ez loc_Exact) as H.
  destruct (binary_round_aux prec emax sx (Zpos mz) ez loc_Exact); simpl; tauto.
Qed.

Lemma binary_normalize_low (m e : Z) : low (binary_normalize prec emax m e false).
Proof. destruct m; simpl; trivial; apply binary_round_low. Qed.

Lemma binary_normalize_positive (m e : Z) :
  emin <= e -> SFltb zero (binary_normalize prec emax m e false) = (0 <? m)%Z.
Proof.
  intros He; destruct m as [|q|q]; cbn [binary_normalize]; [reflexivity| |];
    unfold binary_round.
  - pose proof (shl_align_exponent q e (fexp prec emax (Zpos (digits2_pos q) + e))) as X.
    destruct (shl_align q e _) as [mz ez]; simpl in X.
    apply binary_round_aux_pos; [lia|].
    rewrite fexp_eq in X; rewrite emin_eq in *; lia.
  - destruct (shl_align q e _) as [mz ez].
    pose proof (binary_round_aux_sign true (Zpos mz) ez loc_Exact) as H.
    destruct (binary_round_aux prec emax true (Zpos mz) ez loc_Exact) as [s|s| |s m' e'];
      try reflexivity; [subst s | destruct H as [-> _]]; reflexivity.
Qed.

Lemma valid_finite (s : bool) (m : positive) (e : Z) :
  valid (S754_finite s m e) = true ->
  emin <= e /\ Zpos m < 2 ^ 53 /\ (emin < e -> 2 ^ 52 <= Zpos m).
Proof.
  unfold valid, valid_binary, bounded, canonical_mantissa.
  rewrite andb_true_iff, Z.eqb_eq, fexp_eq, emin_eq; intros [C _].
  pose proof (digits2_bounds m) as [B1 B2].
  repeat split; try lia.
  - eapply Z.lt_le_trans; [exact B2|]; apply Z.pow_le_mono_r; lia.
  - intros H; etransitivity; [|exact B1]; apply Z.pow_le_mono_r; lia.
Qed.

Lemma valid_low (x : spec_float) : valid x = true -> low x.
Proof.
  destruct x as [s|s| |s m e]; simpl; trivial.
  intros H; apply (valid_finite s m e H).
Qed.

Lemma SFadd_low (x y : spec_float) : low x -> low y -> low (SFadd prec emax x y).
Proof.
  destruct x as [sx|sx| |sx mx ex], y as [sy|sy| |sy my ey];
    try (intros _ _; unfold SFadd; apply binary_normalize_low);
    simpl; trivial; destruct sx, sy; simpl; trivial.
Qed.

Lemma SFdiv_low (x y : spec_float) : low (SFdiv prec emax x y).
Proof.
  destruct x as [sx|sx| |sx mx ex], y as [sy|sy| |sy my ey]; simpl; trivial.
  destruct (SFdiv_core_binary prec emax (Zpos mx) ex (Zpos my) ey) as [[mz ez] lz].
  pose proof (binary_round_aux_sign (xorb sx sy) mz ez lz) as H.
  destruct (binary_round_aux prec emax (xorb sx sy) mz ez lz); simpl; tauto.
Qed.

Lemma pow2_pos (e : Z) : 0 <= e -> 0 < 2 ^ e.
Proof. intros H; apply Z.pow_pos_nonneg; lia. Qed.

Lemma scale_lt (a b k p t : Z) :
  0 < k -> 2 <= p -> a < 2 * t -> t <= b -> 0 < b -> a * k < b * (k * p).
Proof.
  intros Hk Hp Ha Hb Hb0.
  assert (a * k < 2 * t * k) by (apply Z.mul_lt_mono_pos_r; lia).
  assert (2 * t * k <= 2 * b * k) by (apply Z.mul_le_mono_nonneg_r; lia).
  assert (0 <= (p - 2) * (b * k)) by (apply Z.mul_nonneg_nonneg; nia).
  lia.
Qed.

(** On binary64 values the order of [SFcompare], which compares exponents
    before mantissas, is the order of the values. *)
Lemma compare_magnitude (s1 s2 : bool) (m1 m2 : positive) (e1 e2 : Z) :
  valid (S754_finite s1 m1 e1) = true ->
  valid (S754_finite s2 m2 e2) = true ->
  match (e1 ?= e2)%Z with
  | Lt => Lt
  | Gt => Gt
  | Eq => Pos.compare_cont Eq m1 m2
  end = (Zpos m1 * 2 ^ (e1 - emin) ?= Zpos m2 * 2 ^ (e2 - emin))%Z.
Proof.
  intros V1 V2.
  destruct (valid_finite _ _ _ V1) as (L1 & U1 & N1).
  destruct (valid_finite _ _ _ V2) as (L2 & U2 & N2).
  pose proof (pow2_pos (e1 - emin)) as K1; pose proof (pow2_pos (e2 - emin)) as K2.
  change (2 ^ 53) with (2 * 2 ^ 52) in *.
  destruct (Z.compare_spec e1 e2) as [E|E|E].
  - subst e2; rewrite <- Zmult_compare_compat_r by lia; reflexivity.
  - symmetry; apply Z.compare_lt_iff.
    replace (e2 - emin) with ((e1 - emin) + (e2 - e1)) by lia.
    rewrite Z.pow_add_r by lia.
    assert (2 ^ 1 <= 2 ^ (e2 - e1)) by (apply Z.pow_le_mono_r; lia).
    apply scale_lt with (t := 2 ^ 52); try lia.
  - symmetry; apply Z.compare_gt_iff.
    replace (e1 - emin) with ((e2 - emin) + (e1 - e2)) by lia.
    rewrite Z.pow_add_r by lia.
    assert (2 ^ 1 <= 2 ^ (e1 - e2)) by (apply Z.pow_le_mono_r; lia).
    apply scale_lt with (t := 2 ^ 52); try lia.
Qed.

Lemma scaled_sign (s : bool) (m : positive) (e : Z) :
  emin <= e ->
  (if s then scaled (S754_finite s m e) < 0 else 0 < scaled (S754_finite s m e)).
Proof.
  intros H; pose proof (pow2_pos (e - emin)); unfold scaled.
  destruct s; simpl cond_Zopp; nia.
Qed.

Lemma scaled_compare (x y : spec_float) :
  finite x = true -> finite y = true -> valid x = true -> valid y = true ->
  SFcompare x y = Some (scaled x ?= scaled y)%Z.
Proof.
  destruct x as [sx|sx| |sx mx ex], y as [sy|sy| |sy my ey]; try discriminate;
    intros _ _ Vx Vy.
  - reflexivity.
  - pose proof (scaled_sign sy my ey (valid_low _ Vy)) as S.
    cbn [SFcompare]; f_equal; symmetry; change (scaled (S754_zero sx)) with 0.
    destruct sy; [apply Z.compare_gt_iff | apply Z.compare_lt_iff]; exact S.
  - pose proof (scaled_sign sx mx ex (valid_low _ Vx)) as S.
    cbn [SFcompare]; f_equal; symmetry; change (scaled (S754_zero sy)) with 0.
    destruct sx; [apply Z.compare_lt_iff | apply Z.compare_gt_iff]; exact S.
  - pose proof (scaled_sign sx mx ex (valid_low _ Vx)) as Sx.
    pose proof (scaled_sign sy my ey (valid_low _ Vy)) as Sy.
    pose proof (compare_magnitude sx sy mx my ex ey Vx Vy) as C.
    cbn [SFcompare]; f_equal.
    destruct sx, sy.
    + unfold scaled; simpl cond_Zopp.
      rewrite <- !Pos2Z.opp_pos, !Z.mul_opp_l, Z.compare_opp.
      rewrite (Z.compare_antisym (Zpos mx * _) (Zpos my * _)), <- C.
      destruct (ex ?= ey)%Z; reflexivity.
    + symmetry; apply Z.compare_lt_iff; lia.
    + symmetry; apply Z.compare_gt_iff; lia.
    + rewrite C; reflexivity.
Qed.

(** The difference of two finite values is positive exactly when the first
    is the greater: the subtraction is computed exactly before it is rounded,
    and a multiple of the least unit does not round to zero. *)
Lemma SFsub_positive (x y : spec_float) :
  finite x = true -> finite y = true -> low x -> low y ->
  SFltb zero (SFsub prec emax x y) = (scaled y <? scaled x)%Z.
Proof.
  destruct x as [sx|sx| |sx mx ex], y as [sy|sy| |sy my ey]; try discriminate;
    intros _ _ Lx Ly.
  - destruct sx, sy; reflexivity.
  - pose proof (scaled_sign sy my ey Ly) as S.
    change (scaled (S754_zero sx)) with 0.
    destruct sy; cbn [SFsub negb];
      [ change (SFltb zero (S754_finite false my ey)) with true; symmetry; apply Z.ltb_lt
      | change (SFltb zero (S754_finite true my ey)) with false; symmetry; apply Z.ltb_ge ];
      lia.
  - pose proof (scaled_sign sx mx ex Lx) as S.
    change (scaled (S754_zero sy)) with 0.
    destruct sx; cbn [SFsub];
      [ change (SFltb zero (S754_finite true mx ex)) with false; symmetry; apply Z.ltb_ge
      | change (SFltb zero (S754_finite false mx ex)) with true; symmetry; apply Z.ltb_lt ];
      lia.
  - simpl in Lx, Ly; unfold SFsub.
    rewrite binary_normalize_positive by lia.
    rewrite !shl_align_value by lia.
    unfold scaled.
    replace (ex - emin) with ((ex - Z.min ex ey) + (Z.min ex ey - emin)) by lia.
    replace (ey - emin) with ((ey - Z.min ex ey) + (Z.min ex ey - emin)) by lia.
    rewrite !Z.pow_add_r by lia.
    pose proof (pow2_pos (Z.min ex ey - emin)) as K.
    set (k := 2 ^ (Z.min ex ey - emin)) in *.
    set (a := Zpos mx * 2 ^ (ex - Z.min ex ey)).
    set (b := Zpos my * 2 ^ (ey - Z.min ex ey)).
    replace (cond_Zopp sx (Zpos mx) * (2 ^ (ex - Z.min ex ey) * k))
      with (cond_Zopp sx a * k) by (unfold a; destruct sx; unfold cond_Zopp; ring).
    replace (cond_Zopp sy (Zpos my) * (2 ^ (ey - Z.min ex ey) * k))
      with (cond_Zopp sy b * k) by (unfold b; destruct sy; unfold cond_Zopp; ring).
    apply eq_true_iff_eq; rewrite !Z.ltb_lt; nia.
Qed.

Lemma SFleb_scaled (x y : spec_float) :
  finite x = true -> finite y = true -> valid x = true -> valid y = true ->
  SFleb x y = (scaled x <=? scaled y)%Z.
Proof.
  intros Fx Fy Vx Vy; unfold SFleb, Z.leb.
  rewrite (scaled_compare x y Fx Fy Vx Vy).
  destruct (scaled x ?= scaled y)%Z; reflexivity.
Qed.

(** The test of [wait] is monotone in the reading of the clock: once
    [a - t > 0] is false at a reading, it is false at every later one. *)
Lemma gate_monotone (a t1 t2 : spec_float) :
  low a -> valid t1 = true -> valid t2 = true ->
  SFleb t1 t2 = true ->
  SFltb zero (SFsub prec emax a t1) = false ->
  SFltb zero (SFsub prec emax a t2) = false.
Proof.
  intros La V1 V2.
  destruct (finite a) eqn:Fa, (finite t1) eqn:F1, (finite t2) eqn:F2;
    [ rewrite (SFleb_scaled t1 t2), !SFsub_positive by auto using valid_low;
      rewrite Z.leb_le, !Z.ltb_ge; lia | .. ];
    clear La V1 V2;
    destruct a as [sa|sa| |sa ma ea], t1 as [s1|s1| |s1 m1 e1], t2 as [s2|s2| |s2 m2 e2];
    try discriminate; float_cases.
Qed.

Lemma SFleb_trans (a b c : spec_float) :
  valid a = true -> valid b = true -> valid c = true ->
  SFleb a b = true -> SFleb b c = true -> SFleb a c = true.
Proof.
  intros Va Vb Vc.
  destruct (finite a) eqn:Fa, (finite b) eqn:Fb, (finite c) eqn:Fc;
    [ rewrite !SFleb_scaled, !Z.leb_le by assumption; lia | .. ];
    clear Va Vb Vc;
    destruct a as [sa|sa| |sa ma ea], b as [sb|sb| |sb mb eb], c as [sc|sc| |sc mc ec];
    try discriminate; float_cases.
Qed.

Lemma SFleb_refl (a x : spec_float) :
  valid x = true -> SFleb a x = true -> SFleb x x = true.
Proof.
  intros V; destruct (finite x) eqn:F.
  - intros _; rewrite SFleb_scaled by assumption; apply Z.leb_refl.
  - destruct a as [sa|sa| |sa ma ea], x as [s|s| |s m e]; try discriminate; float_cases.
Qed.

Lemma SFsub_self (x : spec_float) : low x -> SFltb zero (SFsub prec emax x x) = false.
Proof.
  intros L; destruct (finite x) eqn:F.
  - rewrite SFsub_positive by assumption; apply Z.ltb_irrefl.
  - destruct x as [s|s| |s m e]; try discriminate; float_cases.
Qed.

(** ** The test of wait *)

(** The float from which [wait] subtracts the reading of the clock. *)
Lemma gate_test (r : RateLimit) (t : spec_float) :
  py_gt (remaining_at r t) (PyInt 0)
  = SFltb zero (SFsub prec emax (to_float (py_add (last_use r) (interval r))) t).
Proof.
  unfold remaining_at, py_sub.
  destruct (py_add (last_use r) (interval r)); reflexivity.
Qed.

Lemma within_test (i : number) (a b : spec_float) :
  within i a b = SFltb zero (SFsub prec emax (SFadd prec emax a (to_float i)) b).
Proof. reflexivity. Qed.

(** What the test of [wait] says of the values: when it is false, the later
    reading is not below the float sum of the earlier one and the interval. *)
Lemma within_value (i : number) (a b : spec_float) :
  low a -> low (to_float i) -> low b ->
  finite (SFadd prec emax a (to_float i)) = true -> finite b = true ->
  within i a b = false ->
  scaled (SFadd prec emax a (to_float i)) <= scaled b.
Proof.
  intros La Li Lb Fs Fb; rewrite within_test, SFsub_positive; trivial.
  - now rewrite Z.ltb_ge.
  - now apply SFadd_low.
Qed.

(** Where the sum of the earlier reading and the interval is exact, the two
    readings are apart by the interval at least. *)
Lemma within_exact (i : number) (a b : spec_float) :
  low a -> low (to_float i) -> low b ->
  finite (SFadd prec emax a (to_float i)) = true -> finite b = true ->
  scaled (SFadd prec emax a (to_float i)) = scaled a + scaled (to_float i) ->
  within i a b = false ->
  scaled (to_float i) <= scaled b - scaled a.
Proof.
  intros La Li Lb Fs Fb E W.
  pose proof (within_value i a b La Li Lb Fs Fb W); lia.
Qed.

Lemma float_of_int_low (z : Z) : low (float_of_int z).
Proof. apply binary_normalize_low. Qed.

Lemma py_add_low (a b : number) :
  low (to_float a) -> low (to_float b) -> low (to_float (py_add a b)).
Proof.
  destruct a as [x|x], b as [y|y]; cbn [py_add to_float]; intros La Lb;
    try apply SFadd_low; trivial; apply float_of_int_low.
Qed.

(** ** RateLimit.__init__ *)

Lemma split_colon_at (d t : string) :
  colon_free d = true -> split_colon (d ++ ":" ++ t) = Some (d, t).
Proof.
  change (":" ++ t) with (String ":" t).
  induction d as [|c d IH]; simpl; [reflexivity|].
  rewrite andb_true_iff, negb_true_iff; intros [-> H]; now rewrite (IH H).
Qed.

Lemma split_colon_none (raw : string) : colon_free raw = true -> split_colon raw = None.
Proof.
  induction raw as [|c raw IH]; simpl; [reflexivity|].
  rewrite andb_true_iff, negb_true_iff; intros [-> H]; now rewrite (IH H).
Qed.

Lemma positive_not_zero (x : spec_float) : SFltb zero x = true -> SFeqb x zero = false.
Proof. destruct x as [s|s| |s m e]; float_cases. Qed.

Lemma nonpositive_not_positive (x : spec_float) : SFleb x zero = true -> SFltb zero x = false.
Proof. destruct x as [s|s| |s m e]; float_cases. Qed.

(** The interval of a rate: [1 / rate if rate > 0 else 0]. *)
Lemma RateLimit_init_cases (py_float : string -> option spec_float) (raw : string) :
  RateLimit_init py_float raw
  = let (d, rate_text) :=
      match split_colon raw with
      | Some (d, t) => (Some d, t)
      | None => (None, raw)
      end in
    match py_float rate_text with
    | None => Raise (ValueError ("Invalid rate format: " ++ quote ++ raw ++ quote))
    | Some rate =>
        Return {| domain := d; rate := rate;
                  interval := if SFltb zero rate
                              then PyFloat (SFdiv prec emax (float_of_int 1) rate)
                              else PyInt 0;
                  last_use := PyInt 0 |}
    end.
Proof.
  unfold RateLimit_init.
  destruct (match split_colon raw with Some (d, t) => (Some d, t) | None => (None, raw) end)
    as [d rate_text].
  destruct (py_float rate_text) as [rate|]; [|reflexivity].
  change (py_gt (PyFloat rate) (PyInt 0)) with (SFltb zero rate).
  destruct (SFltb zero rate) eqn:P; [|reflexivity].
  unfold py_truediv; cbn [to_float]; fold zero.
  now rewrite (positive_not_zero rate P).
Qed.

Lemma RateLimit_init_low (py_float : string -> option spec_float) (raw : string) (r : RateLimit) :
  RateLimit_init py_float raw = Return r ->
  low (to_float (interval r)) /\ last_use r = PyInt 0.
Proof.
  rewrite RateLimit_init_cases.
  destruct (match split_colon raw with Some (d, t) => (Some d, t) | None => (None, raw) end)
    as [d rate_text].
  destruct (py_float rate_text) as [rate|]; [|discriminate].
  intros [= <-]; split; [|reflexivity].
  destruct (SFltb zero rate);
    [exact (SFdiv_low (float_of_int 1) rate) | exact (float_of_int_low 0)].
Qed.

Lemma SFadd_zero_sub (l : spec_float) :
  low l -> SFltb zero (SFsub prec emax (SFadd prec emax l zero) l) = false.
Proof.
  intros L; destruct l as [s|s| |s m e]; try (float_cases; fail).
  change (SFadd prec emax (S754_finite s m e) zero) with (S754_finite s m e).
  now apply SFsub_self.
Qed.

(** With an interval of 0 the first stretch of [wait] returns, on a clock
    that has not gone back since the last use. *)
Lemma unlimited_never_sleeps (r : RateLimit) (t1 t2 : spec_float) :
  interval r = PyInt 0 ->
  match last_use r with
  | PyInt z => z = 0 /\ SFleb zero t1 = true
  | PyFloat l => valid l = true /\ SFleb l t1 = true
  end ->
  valid t1 = true ->
  wait_turn r t1 t2 = (set_last_use r (PyFloat t2), Acquired).
Proof.
  intros I H V; unfold wait_turn; rewrite gate_test, I.
  destruct (last_use r) as [z|l]; destruct H as [H1 H2].
  - subst z; change (to_float (py_add (PyInt 0) (PyInt 0))) with zero.
    rewrite (gate_monotone zero zero t1); trivial; reflexivity.
  - change (to_float (py_add (PyFloat l) (PyInt 0))) with (SFadd prec emax l zero).
    rewrite (gate_monotone (SFadd prec emax l zero) l t1); trivial.
    + apply SFadd_low; [now apply valid_low | exact Logic.I].
    + now apply SFadd_zero_sub, valid_low.
Qed.

(** C10: the construction of a rate limit raises exactly when the builtin
    [float] rejects the text of the rate (the text after the first colon, or
    the whole text when there is no colon), and what it raises is the
    ValueError of the source; every rate that parses is accepted.  A rate
    that is not above 0 gives the interval 0, with which [wait] returns in
    its first stretch, going through no sleep, on a clock that has not gone
    back.  So do the texts -1 and example.com:-5. *)
Theorem rate_errors_and_nonpositive_rates :
  forall (py_float : string -> option spec_float),
    (forall d t, colon_free d = true ->
       ((exists e, RateLimit_init py_float (d ++ ":" ++ t) = Raise e) <-> py_float t = None)
       /\ (forall e, RateLimit_init py_float (d ++ ":" ++ t) = Raise e ->
             e = ValueError ("Invalid rate format: " ++ quote ++ (d ++ ":" ++ t) ++ quote))
       /\ (forall r, RateLimit_init py_float (d ++ ":" ++ t) = Return r ->
             domain r = Some d /\ py_float t = Some (rate r)))
    /\ (forall raw, colon_free raw = true ->
          ((exists e, RateLimit_init py_float raw = Raise e) <-> py_float raw = None)
          /\ (forall e, RateLimit_init py_float raw = Raise e ->
                e = ValueError ("Invalid rate format: " ++ quote ++ raw ++ quote))
          /\ (forall r, RateLimit_init py_float raw = Return r ->
                domain r = None /\ py_float raw = Some (rate r)))
    /\ (forall raw r, RateLimit_init py_float raw = Return r ->
          SFleb (rate r) zero = true ->
          interval r = PyInt 0
          /\ last_use r = PyInt 0
          /\ (forall t1 t2 clock,
                valid t1 = true -> SFleb zero t1 = true ->
                wait r (t1 :: t2 :: clock) = Some (set_last_use r (PyFloat t2), []))
          /\ (forall l t1 t2 clock,
                valid l = true -> valid t1 = true -> SFleb l t1 = true ->
                wait (set_last_use r (PyFloat l)) (t1 :: t2 :: clock)
                = Some (set_last_use r (PyFloat t2), [])))
    /\ (py_float "-1" = Some (SFopp (float_of_int 1)) ->
        RateLimit_init py_float "-1"
        = Return {| domain := None; rate := SFopp (float_of_int 1);
                    interval := PyInt 0; last_use := PyInt 0 |})
    /\ (py_float "-5" = Some (SFopp (float_of_int 5)) ->
        RateLimit_init py_float "example.com:-5"
        = Return {| domain := Some "example.com"; rate := SFopp (float_of_int 5);
                    interval := PyInt 0; last_use := PyInt 0 |}).
Proof.
  intros py_float; repeat apply conj.
  - intros d t Hd; rewrite RateLimit_init_cases, (split_colon_at d t Hd).
    destruct (py_float t) as [rate|]; (split; [split|split]).
    + intros [e H]; discriminate.
    + discriminate.
    + intros e H; discriminate.
    + intros r [= <-]; split; reflexivity.
    + reflexivity.
    + intros _; eexists; reflexivity.
    + intros e [= <-]; reflexivity.
    + intros r H; discriminate.
  - intros raw Hr; rewrite RateLimit_init_cases, (split_colon_none raw Hr).
    destruct (py_float raw) as [rate|]; (split; [split|split]).
    + intros [e H]; discriminate.
    + discriminate.
    + intros e H; discriminate.
    + intros r [= <-]; split; reflexivity.
    + reflexivity.
    + intros _; eexists; reflexivity.
    + intros e [= <-]; reflexivity.
    + intros r H; discriminate.
  - intros raw r; rewrite RateLimit_init_cases.
    destruct (match split_colon raw with Some (d, t) => (Some d, t) | None => (None, raw) end)
      as [d rate_text].
    destruct (py_float rate_text) as [x|]; [|discriminate].
    intros [= <-] Hle; cbn [rate] in Hle.
    assert (I : interval {| domain := d; rate := x;
                            interval := if SFltb zero x
                                        then PyFloat (SFdiv prec emax (float_of_int 1) x)
                                        else PyInt 0;
                            last_use := PyInt 0 |} = PyInt 0)
      by (cbn [interval]; now rewrite (nonpositive_not_positive x Hle)).
    repeat split; trivial.
    + intros t1 t2 clock V Z; cbn [wait hd].
      rewrite unlimited_never_sleeps; trivial.
      cbn [last_use]; auto.
    + intros l t1 t2 clock Vl V Z; cbn [wait hd].
      rewrite unlimited_never_sleeps; trivial.
      cbn [last_use set_last_use]; auto.
  - intros H; rewrite RateLimit_init_cases; cbn; rewrite H; reflexivity.
  - intros H; rewrite RateLimit_init_cases.
    change (split_colon "example.com:-5") with (Some ("example.com", "-5")).
    cbv iota beta; rewrite H; reflexivity.
Qed.

(** The text example.com:-5, its rate parsed as a decimal integer. *)
Lemma rate_errors_and_nonpositive_rates_witness :
  RateLimit_init float_of_literal "example.com:-5"
  = Return {| domain := Some "example.com"; rate := SFopp (float_of_int 5);
              interval := PyInt 0; last_use := PyInt 0 |}.
Proof.
  apply (proj2 (proj2 (proj2 (proj2 (rate_errors_and_nonpositive_rates float_of_literal))))).
  reflexivity.
Defined.

(** ** Tasks on one rate limit *)

Lemma ticks_iff (a b : spec_float) :
  ticks a b = true <-> valid b = true /\ SFleb a b = true.
Proof. unfold ticks, valid; apply andb_true_iff. Qed.

Lemma nth_error_repeat_eq {A} (x y : A) (n k : nat) :
  nth_error (repeat x n) k = Some y -> y = x.
Proof.
  revert k; induction n as [|n IH]; intros [|k]; simpl; try discriminate.
  - now intros [= <-].
  - apply IH.
Qed.

(** A reading recorded before stays outside the interval at every reading
    that is not before what was [last_use] then. *)
Lemma within_later (i : number) (t l t2 : spec_float) :
  low (to_float i) -> valid t = true -> valid l = true -> valid t2 = true ->
  SFleb l t2 = true ->
  within i l t2 = false ->
  t = l \/ within i t l = false ->
  within i t t2 = false.
Proof.
  intros Li Vt Vl V2 L2 Hl [->|Ht]; [exact Hl|].
  rewrite within_test in *.
  apply (gate_monotone _ l t2); trivial.
  apply SFadd_low; [now apply valid_low | exact Li].
Qed.

Lemma gate_inv_step (i : number) (k : nat) (t1 t2 : spec_float) (g g' : gate) :
  low (to_float i) -> gate_inv i g -> gate_step k t1 t2 g = Some g' -> gate_inv i g'.
Proof.
  intros Li (Hi & Vc & Rc & Hl & Hd & Hp); unfold gate_step.
  destruct (nth_error (tasks g) k) as [[|stamp]|] eqn:Hk; try discriminate.
  destruct (ticks (clock g) t1) eqn:T1; [|discriminate].
  apply ticks_iff in T1; destruct T1 as [V1 C1].
  unfold wait_turn; rewrite gate_test.
  destruct (SFltb zero _) eqn:G.
  - (* the gate is closed: the task sleeps *)
    intros [= <-]; unfold gate_inv; cbn [lock tasks clock].
    split; [exact Hi|]; split; [exact V1|].
    split; [now apply (SFleb_refl (clock g))|].
    split; [|split; [exact Hd | exact Hp]].
    destruct (last_use (lock g)) as [z|l]; [trivial|].
    destruct Hl as [Vl Hl]; split; [exact Vl|].
    now apply (SFleb_trans l (clock g) t1).
  - (* the gate is open: the task records [t2] and returns *)
    destruct (ticks t1 t2) eqn:T2; [|discriminate].
    apply ticks_iff in T2; destruct T2 as [V2 C2].
    intros [= <-]; unfold gate_inv; cbn [lock tasks clock last_use set_last_use interval].
    assert (R2 : SFleb t2 t2 = true) by now apply (SFleb_refl t1).
    assert (old : forall j t, j <> k -> nth_error (tasks g) j = Some (Done t) ->
                    valid t = true /\ SFleb t t2 = true /\ within i t t2 = false).
    { intros j t Hj Ht; destruct (Hd _ _ Ht) as (Vt & l & El & Tl & Wl).
      rewrite El in Hl, G; destruct Hl as [Vl Cl].
      assert (L2 : SFleb l t2 = true).
      { apply (SFleb_trans l t1 t2); trivial.
        now apply (SFleb_trans l (clock g) t1). }
      split; [exact Vt|split].
      - now apply (SFleb_trans t l t2).
      - apply (within_later i t l t2); trivial.
        rewrite within_test; apply (gate_monotone _ t1 t2); trivial.
        + apply SFadd_low; [now apply valid_low | exact Li].
        + rewrite <- Hi; exact G. }
    split; [exact Hi|]; split; [exact V2|]; split; [exact R2|].
    split; [split; [exact V2 | exact R2]|]; split.
    + intros j t; destruct (Nat.eq_dec k j) as [<-|Hj].
      * rewrite (nth_error_update_same _ _ _ _ Hk); intros [= <-].
        split; [exact V2|]; exists t2; auto.
      * rewrite nth_error_update_other by exact Hj; intros Ht.
        destruct (old j t) as (Vt & T & W); [congruence | exact Ht|].
        split; [exact Vt|]; exists t2; auto.
    + intros j k' tj tk Hjk; unfold spaced.
      destruct (Nat.eq_dec k j) as [<-|Hj], (Nat.eq_dec k k') as [<-|Hk'];
        try congruence;
        rewrite ?(nth_error_update_same _ _ _ _ Hk), ?nth_error_update_other by assumption.
      * intros [= <-] Ht; right; apply (old k' tk); congruence.
      * intros Ht [= <-]; left; apply (old j tj); congruence.
      * intros Hj' Hk''; now apply (Hp j k').
Qed.

Lemma gate_inv_run (i : number) (schedule : list (nat * spec_float * spec_float)) :
  low (to_float i) ->
  forall g g', gate_inv i g -> gate_run schedule g = Some g' -> gate_inv i g'.
Proof.
  intros Li; induction schedule as [|[[k t1] t2] schedule IH]; simpl; intros g g' Hg Hrun.
  - now injection Hrun as <-.
  - destruct (gate_step k t1 t2 g) as [h|] eqn:S; [|discriminate].
    apply (IH h); [|exact Hrun].
    now apply (gate_inv_step i k t1 t2 g).
Qed.

(** C3, as stated, fails, by the rounding of [last_use + interval].  With
    the rate 10 (an interval of 0.1, above 0), on a clock that does not go
    back, two tasks complete with the readings 1700000000.0 and
    1700000000.0999999, which are 0.09999990463256836 apart, less than the
    interval, both as the floats subtract and as exact values: the float sum
    of the first reading and the interval is the second reading.  With the
    rate 10000000 the float sum of a reading and the interval is that
    reading, and three tasks complete with one and the same reading. *)
Lemma acquisitions_within_interval :
  (RateLimit_init float_of_literal "10" = Return rate_ten
   /\ SFltb zero (to_float (interval rate_ten)) = true
   /\ ticking reading [reading; reading; reading_later] = true
   /\ exists g,
        gate_run two_tasks_close (gate_start rate_ten 2 reading) = Some g
        /\ tasks g = [Done reading; Done reading_later]
        /\ SFltb (SFsub prec emax reading_later reading) (to_float (interval rate_ten)) = true
        /\ scaled reading_later - scaled reading < scaled (to_float (interval rate_ten)))
  /\ (RateLimit_init float_of_literal "10000000" = Return rate_fast
      /\ SFltb zero (to_float (interval rate_fast)) = true
      /\ exists g,
           gate_run three_tasks_at_once (gate_start rate_fast 3 reading) = Some g
           /\ tasks g = [Done reading; Done reading; Done reading]).
Proof.
  split; (split; [reflexivity|split; [reflexivity|]]).
  - split; [reflexivity|].
    eexists; split; [vm_compute; reflexivity|].
    split; [reflexivity|split; [reflexivity|]].
    vm_compute; reflexivity.
  - eexists; split; [vm_compute; reflexivity | reflexivity].
Qed.

(** C3, amended: any number of tasks wait on one rate limit, resumed in any
    order, on a clock whose readings are binary64 values that do not go back.
    The stretch in which a task finds the gate open is the stretch in which
    it assigns [last_use], so no two tasks go through on one stale
    [last_use]; [last_use] is not behind any recorded reading; and of two
    tasks that have returned, one recorded a reading that is outside the
    interval opened by the reading of the other as [wait] tests it:
    [earlier + interval - later > 0] is false.  In values, for finite
    readings and sums: the later reading is not below the float sum of the
    earlier one and the interval. *)
Theorem acquisitions_spaced :
  forall r n t0 schedule g,
    low (to_float (interval r)) ->
    ticks t0 t0 = true ->
    match last_use r with
    | PyInt _ => True
    | PyFloat l => valid l = true /\ SFleb l t0 = true
    end ->
    gate_run schedule (gate_start r n t0) = Some g ->
    (forall j k tj tk,
       j <> k ->
       nth_error (tasks g) j = Some (Done tj) ->
       nth_error (tasks g) k = Some (Done tk) ->
       within (interval r) tj tk = false \/ within (interval r) tk tj = false)
    /\ (forall k t,
          nth_error (tasks g) k = Some (Done t) ->
          exists l, last_use (lock g) = PyFloat l /\ SFleb t l = true)
    /\ (forall j k tj tk,
          j <> k ->
          nth_error (tasks g) j = Some (Done tj) ->
          nth_error (tasks g) k = Some (Done tk) ->
          finite tj = true -> finite tk = true ->
          finite (SFadd prec emax tj (to_float (interval r))) = true ->
          finite (SFadd prec emax tk (to_float (interval r))) = true ->
          scaled (SFadd prec emax tj (to_float (interval r))) <= scaled tk
          \/ scaled (SFadd prec emax tk (to_float (interval r))) <= scaled tj).
Proof.
  intros r n t0 schedule g Li T0 Hl Hrun.
  apply ticks_iff in T0; destruct T0 as [V0 R0].
  assert (Hinv : gate_inv (interval r) g).
  { apply (gate_inv_run _ schedule Li (gate_start r n t0)); [|exact Hrun].
    unfold gate_inv, gate_start; cbn [lock tasks clock].
    split; [reflexivity|]; split; [exact V0|]; split; [exact R0|]; split; [exact Hl|].
    split.
    - intros k t H; apply nth_error_repeat_eq in H; discriminate.
    - intros j k tj tk _ H; apply nth_error_repeat_eq in H; discriminate. }
  destruct Hinv as (_ & _ & _ & _ & Hd & Hp); split; [|split].
  - exact Hp.
  - intros k t H; destruct (Hd k t H) as (_ & l & E & L & _); now exists l.
  - intros j k tj tk Hjk Hj Hk Fj Fk Sj Sk.
    destruct (Hd j tj Hj) as [Vj _]; destruct (Hd k tk Hk) as [Vk _].
    apply valid_low in Vj, Vk.
    destruct (Hp j k tj tk Hjk Hj Hk) as [W|W]; [left | right];
      now apply within_value.
Qed.

(** Two tasks on the rate limit of example.com. *)
Lemma acquisitions_spaced_witness :
  within (interval rate_example) (flt 10 0) (flt 11 0) = false
  \/ within (interval rate_example) (flt 11 0) (flt 10 0) = false.
Proof.
  eassert (R : gate_run two_tasks (gate_start rate_example 2 (flt 10 0)) = Some _)
    by (vm_compute; reflexivity).
  assert (L : low (to_float (interval rate_example))) by (vm_compute; discriminate).
  apply (proj1 (acquisitions_spaced rate_example 2 (flt 10 0) two_tasks _
                  L eq_refl Logic.I R) 0%nat 1%nat).
  - discriminate.
  - reflexivity.
  - reflexivity.
Defined.

(** * Further properties *)

(** ** The patterns of get_status *)

Lemma span_app (p : ascii -> bool) (a b : string) :
  all_chars p a = true -> stops p b -> span p (a ++ b) = (a, b).
Proof.
  induction a as [|c a IH]; simpl.
  - intros _ Hb; destruct b as [|c b]; simpl in *; [reflexivity | now rewrite Hb].
  - rewrite andb_true_iff; intros [-> Ha] Hb; now rewrite (IH Ha Hb).
Qed.

Lemma span_inv (p : ascii -> bool) (s a b : string) :
  span p s = (a, b) -> s = a ++ b /\ all_chars p a = true /\ stops p b.
Proof.
  revert a b; induction s as [|c s IH]; simpl; intros a b.
  - intros [= <- <-]; repeat split.
  - destruct (p c) eqn:P.
    + destruct (span p s) as [a' b']; intros [= <- <-].
      destruct (IH a' b' eq_refl) as (-> & Ha & Hb); simpl; rewrite P; auto.
    + intros [= <- <-]; simpl; auto.
Qed.

Lemma after_literal (tail : string) :
  substring 3 (length ("://" ++ tail) - 3) ("://" ++ tail) = tail.
Proof. simpl; rewrite Nat.sub_0_r; apply substring_all. Qed.

Lemma prefix_literal (rest : string) :
  prefix "://" rest = true <-> exists tail, rest = "://" ++ tail.
Proof.
  split.
  - destruct rest as [|c1 [|c2 [|c3 tail]]]; cbn [prefix]; try discriminate;
      repeat (destruct (ascii_dec _ _) as [?|?]; try discriminate).
    intros _; subst; now exists tail.
  - intros [tail ->]; apply prefix_correct; destruct tail; reflexivity.
Qed.

Lemma nonempty_eqb (s : string) : (s =? EmptyString) = false <-> s <> EmptyString.
Proof. apply String.eqb_neq. Qed.

Lemma DOMAIN_PATTERN_eq (url : string) :
  DOMAIN_PATTERN url
  = let (scheme, rest) := span scheme_char url in
    if negb (scheme =? EmptyString) && prefix "://" rest then
      let (host, _) := span host_char (substring 3 (length rest - 3) rest) in
      if host =? EmptyString then None else Some host
    else None.
Proof. reflexivity. Qed.

(** X1: [DOMAIN_PATTERN] extracts [host] from a url exactly when the url is
    a non-empty scheme with no colon, the literal [://], then [host], which
    is not empty and has neither slash nor colon, up to the end of the url or
    to the first slash or colon.  A port or a path that follows the host is
    so no part of the domain; a query that follows the host with no slash
    before it is: from [http://example.com?q=1] the domain extracted is
    [example.com?q=1], which the rate limit of example.com does not match. *)
Theorem domain_extraction :
  (forall url host,
     DOMAIN_PATTERN url = Some host
     <-> exists scheme rest,
           url = scheme ++ "://" ++ host ++ rest
           /\ scheme <> EmptyString /\ all_chars scheme_char scheme = true
           /\ host <> EmptyString /\ all_chars host_char host = true
           /\ stops host_char rest)
  /\ DOMAIN_PATTERN "http://example.com:8080/a?q=1" = Some "example.com"
  /\ DOMAIN_PATTERN "http://example.com?q=1" = Some "example.com?q=1"
  /\ gate_of [rate_example] "http://example.com?q=1" = None.
Proof.
  split; [|repeat split; reflexivity].
  intros url host; rewrite DOMAIN_PATTERN_eq; split.
  - destruct (span scheme_char url) as [scheme rest0] eqn:S1.
    destruct (span_inv _ _ _ _ S1) as (-> & Hs & _).
    destruct (negb (scheme =? EmptyString) && prefix "://" rest0) eqn:C; [|discriminate].
    apply andb_true_iff in C; destruct C as [C1 C2].
    apply negb_true_iff, String.eqb_neq in C1.
    apply prefix_literal in C2; destruct C2 as [tail ->].
    rewrite after_literal.
    destruct (span host_char tail) as [h r] eqn:S2.
    destruct (span_inv _ _ _ _ S2) as (-> & Hh & Hr).
    destruct (h =? EmptyString) eqn:E; [discriminate|].
    apply String.eqb_neq in E; intros [= <-].
    now exists scheme, r.
  - intros (scheme & rest & -> & Hs1 & Hs2 & Hh1 & Hh2 & Hr).
    rewrite (span_app scheme_char scheme ("://" ++ host ++ rest) Hs2 eq_refl).
    apply String.eqb_neq in Hs1, Hh1; rewrite Hs1; cbn [negb andb].
    rewrite (proj2 (prefix_literal _) (ex_intro _ (host ++ rest) eq_refl)).
    rewrite after_literal, (span_app host_char host rest Hh2 Hr), Hh1; reflexivity.
Qed.

Lemma PROTOCOL_PATTERN_http (url : string) : PROTOCOL_PATTERN ("http://" ++ url) = true.
Proof.
  unfold PROTOCOL_PATTERN.
  change ("http://" ++ url) with ("http" ++ "://" ++ url).
  rewrite (span_app is_word "http" ("://" ++ url) eq_refl eq_refl); cbn [negb String.eqb andb].
  apply prefix_literal; now exists url.
Qed.

Lemma PROTOCOL_PATTERN_iff (url : string) :
  PROTOCOL_PATTERN url = true <-> has_scheme url.
Proof.
  unfold has_scheme; split.
  - unfold PROTOCOL_PATTERN.
    destruct (span is_word url) as [w rest0] eqn:S.
    destruct (span_inv _ _ _ _ S) as (-> & Hw & _).
    intros H; apply andb_true_iff in H; destruct H as [H1 H2].
    apply negb_true_iff, String.eqb_neq in H1.
    apply prefix_literal in H2; destruct H2 as [tail ->].
    now exists w, tail.
  - intros (scheme & rest & -> & Hn & Hw); unfold PROTOCOL_PATTERN.
    rewrite (span_app is_word scheme ("://" ++ rest) Hw eq_refl).
    apply String.eqb_neq in Hn; rewrite Hn; cbn [negb andb].
    apply prefix_literal; now exists rest.
Qed.

(** X2: [PROTOCOL_PATTERN] matches a url exactly when the url starts with
    word characters, one at least, and [://].  The normalisation of
    [get_status] leaves such a url as it is and puts [http://] before any
    other; after it every url has a scheme, and normalising twice is
    normalising once. *)
Theorem normalize_gives_a_scheme :
  forall url,
    (PROTOCOL_PATTERN url = true <-> has_scheme url)
    /\ (has_scheme url -> normalize url = url)
    /\ (~ has_scheme url -> normalize url = "http://" ++ url)
    /\ has_scheme (normalize url)
    /\ normalize (normalize url) = normalize url.
Proof.
  intros url.
  pose proof (PROTOCOL_PATTERN_iff url) as I.
  assert (H : PROTOCOL_PATTERN (normalize url) = true).
  { unfold normalize; destruct (PROTOCOL_PATTERN url) eqn:P;
      [exact P | apply PROTOCOL_PATTERN_http]. }
  split; [exact I|split; [|split; [|split]]].
  - intros S; apply I in S; unfold normalize; now rewrite S.
  - intros S; unfold normalize; destruct (PROTOCOL_PATTERN url) eqn:P; [|reflexivity].
    destruct S; now apply I.
  - now apply PROTOCOL_PATTERN_iff.
  - unfold normalize at 1; now rewrite H.
Qed.

(** The url [example.com/x] has no scheme; [ftp://example.com] has one. *)
Lemma normalize_gives_a_scheme_witness :
  normalize "ftp://example.com" = "ftp://example.com"
  /\ normalize "example.com/x" = "http://example.com/x".
Proof.
  split.
  - apply (proj1 (proj2 (normalize_gives_a_scheme "ftp://example.com"))).
    exists "ftp", "example.com"; repeat split; discriminate.
  - apply (proj1 (proj2 (proj2 (normalize_gives_a_scheme "example.com/x")))).
    intros S; apply (proj1 (normalize_gives_a_scheme "example.com/x")) in S; discriminate.
Defined.

Lemma all_chars_impl (p q : ascii -> bool) (s : string) :
  (forall c, p c = true -> q c = true) -> all_chars p s = true -> all_chars q s = true.
Proof.
  intros H; induction s as [|c s IH]; cbn [all_chars]; [reflexivity|].
  intros A; apply andb_true_iff in A; destruct A as [A1 A2].
  now rewrite (H _ A1), (IH A2).
Qed.

Lemma word_is_scheme_char (c : ascii) : is_word c = true -> scheme_char c = true.
Proof. destruct c as [[] [] [] [] [] [] [] []]; vm_compute; congruence. Qed.

Lemma span_has_host (s : string) : (fst (span host_char s) =? EmptyString) = negb (has_host s).
Proof.
  destruct s as [|c s]; [reflexivity|]; cbn [span has_host].
  destruct (host_char c); [|reflexivity].
  now destruct (span host_char s).
Qed.

Lemma DOMAIN_PATTERN_after_scheme (scheme rest : string) :
  scheme <> EmptyString -> all_chars scheme_char scheme = true ->
  DOMAIN_PATTERN (scheme ++ "://" ++ rest)
  = if has_host rest then Some (fst (span host_char rest)) else None.
Proof.
  intros Hn Hs; rewrite DOMAIN_PATTERN_eq.
  rewrite (span_app scheme_char scheme ("://" ++ rest) Hs eq_refl).
  apply String.eqb_neq in Hn; rewrite Hn; cbn [negb andb].
  rewrite (proj2 (prefix_literal _) (ex_intro _ rest eq_refl)), after_literal.
  pose proof (span_has_host rest) as E.
  destruct (span host_char rest) as [h r]; cbn [fst] in *; rewrite E.
  now destruct (has_host rest).
Qed.

(** X3: a url with no scheme is requested as it stands behind [http://]
    when it starts with a character of a host; when it is empty or starts
    with a slash or a colon, [get_status] raises the [AttributeError] of
    [.group(1)] on [None] and no request is made. *)
Theorem get_status_without_scheme :
  forall head url,
    PROTOCOL_PATTERN url = false ->
    get_status head url
    = if has_host url then head else Raise (AttributeError no_group).
Proof.
  intros head url P; unfold get_status, normalize; rewrite P.
  change ("http://" ++ url) with ("http" ++ "://" ++ url).
  rewrite DOMAIN_PATTERN_after_scheme by (reflexivity || discriminate).
  now destruct (has_host url).
Qed.

Lemma get_status_without_scheme_witness :
  PROTOCOL_PATTERN "/robots.txt" = false
  /\ get_status (Return 200) "/robots.txt" = Raise (AttributeError no_group).
Proof.
  split; [reflexivity|].
  exact (get_status_without_scheme (Return 200) "/robots.txt" eq_refl).
Defined.

Lemma PROTOCOL_PATTERN_scheme (scheme rest : string) :
  scheme <> EmptyString -> all_chars is_word scheme = true ->
  PROTOCOL_PATTERN (scheme ++ "://" ++ rest) = true.
Proof.
  intros Hn Hw; unfold PROTOCOL_PATTERN.
  rewrite (span_app is_word scheme ("://" ++ rest) Hw eq_refl).
  apply String.eqb_neq in Hn; rewrite Hn; cbn [negb andb].
  apply prefix_literal; now exists rest.
Qed.

(** X4: a url with a scheme of word characters is requested exactly when a
    character of a host follows [://]; a url such as [http://], [http:///x]
    or [http://:80] raises the [AttributeError] and no request is made. *)
Theorem get_status_with_scheme :
  forall head scheme rest,
    scheme <> EmptyString -> all_chars is_word scheme = true ->
    get_status head (scheme ++ "://" ++ rest)
    = if has_host rest then head else Raise (AttributeError no_group).
Proof.
  intros head scheme rest Hn Hw; unfold get_status, normalize.
  rewrite (PROTOCOL_PATTERN_scheme scheme rest Hn Hw), DOMAIN_PATTERN_after_scheme;
    [now destruct (has_host rest) | exact Hn |].
  exact (all_chars_impl _ _ _ word_is_scheme_char Hw).
Qed.

Lemma get_status_with_scheme_witness :
  "https" <> EmptyString /\ all_chars is_word "https" = true
  /\ get_status (Return 200) ("https" ++ "://" ++ ":443") = Raise (AttributeError no_group).
Proof.
  split; [discriminate|split; [reflexivity|]].
  exact (get_status_with_scheme (Return 200) "https" ":443" ltac:(discriminate) eq_refl).
Defined.

(** ** The sorted registry and the lookup *)

Lemma compare_refl (s : string) : (s ?= s) = Eq.
Proof.
  pose proof (String.compare_antisym s s) as H.
  destruct (s ?= s); [reflexivity | discriminate | discriminate].
Qed.

Lemma ltb_irrefl (s : string) : (s <? s) = false.
Proof. unfold String.ltb; now rewrite compare_refl. Qed.

Lemma compare_lt_trans (a b c : string) :
  (a ?= b) = Lt -> (b ?= c) = Lt -> (a ?= c) = Lt.
Proof.
  revert b c; induction a as [|x a IH]; intros [|y b] [|z c]; cbn [String.compare];
    try discriminate; try reflexivity.
  unfold Ascii.compare.
  destruct (N.compare_spec (N_of_ascii x) (N_of_ascii y)) as [E1|E1|E1]; try discriminate;
    destruct (N.compare_spec (N_of_ascii y) (N_of_ascii z)) as [E2|E2|E2]; try discriminate;
    destruct (N.compare_spec (N_of_ascii x) (N_of_ascii z)) as [E3|E3|E3];
    try reflexivity; try lia.
  apply IH.
Qed.

Lemma ltb_flip (a b : string) : (a <? b) = true -> (b <? a) = false.
Proof.
  unfold String.ltb; rewrite (String.compare_antisym b a).
  destruct (a ?= b); simpl; congruence.
Qed.

Lemma not_below_trans (x y z : RateLimit) : not_below x y -> not_below y z -> not_below x z.
Proof.
  unfold not_below, String.ltb; intros Hxy Hyz.
  destruct (sort_key x ?= sort_key z) eqn:Hxz; try reflexivity.
  destruct (sort_key x ?= sort_key y) eqn:E; [| discriminate |].
  - apply String.compare_eq_iff in E; rewrite <- E, Hxz in Hyz; discriminate.
  - assert (F : (sort_key y ?= sort_key x) = Lt)
      by (rewrite String.compare_antisym, E; reflexivity).
    now rewrite (compare_lt_trans _ _ _ F Hxz) in Hyz.
Qed.

Lemma insert_rate_sorted (x : RateLimit) (l : list RateLimit) :
  StronglySorted not_below l -> StronglySorted not_below (insert_rate x l).
Proof.
  induction 1 as [|y l Hl IH Hy]; cbn [insert_rate]; [repeat constructor|].
  destruct (sort_key x <? sort_key y) eqn:E.
  - constructor; [exact IH|].
    apply (Permutation_Forall (Permutation_sym (insert_rate_permutation x l))).
    constructor; [exact (ltb_flip _ _ E) | exact Hy].
  - constructor; [now constructor|].
    constructor; [exact E|].
    apply (Forall_impl (not_below x) (fun z => not_below_trans x y z E) Hy).
Qed.

Lemma sort_rates_sorted (rates : list RateLimit) : StronglySorted not_below (sort_rates rates).
Proof.
  induction rates as [|x rates IH]; [constructor | now apply insert_rate_sorted].
Qed.

Lemma insert_rate_stable (k : string) (x : RateLimit) (l : list RateLimit) :
  filter (with_key k) (insert_rate x l) = filter (with_key k) (x :: l).
Proof.
  induction l as [|y l IH]; [reflexivity|]; cbn [insert_rate].
  destruct (sort_key x <? sort_key y) eqn:E; [|reflexivity].
  cbn [filter] in *; rewrite IH; unfold with_key.
  destruct (String.eqb_spec (sort_key x) k) as [Ex|Ex],
           (String.eqb_spec (sort_key y) k) as [Ey|Ey]; try reflexivity.
  rewrite Ex, Ey, ltb_irrefl in E; discriminate.
Qed.

Lemma sort_rates_stable (k : string) (rates : list RateLimit) :
  filter (with_key k) (sort_rates rates) = filter (with_key k) rates.
Proof.
  induction rates as [|x rates IH]; [reflexivity|].
  change (sort_rates (x :: rates)) with (insert_rate x (sort_rates rates)).
  rewrite insert_rate_stable; cbn [filter]; now rewrite IH.
Qed.

(** X5: the sort of the registry keeps the rate limits given, puts them in
    descending order of their domains compared as text (no domain counting as
    the empty text), and keeps the rate limits of one domain in the order
    they were given in. *)
Theorem sort_rates_descending_stable :
  forall rates,
    Permutation (sort_rates rates) rates
    /\ StronglySorted not_below (sort_rates rates)
    /\ (forall k, filter (with_key k) (sort_rates rates) = filter (with_key k) rates).
Proof.
  intros rates; split; [apply sort_rates_permutation|split].
  - apply sort_rates_sorted.
  - intros k; apply sort_rates_stable.
Qed.

Lemma find_split {A} (f : A -> bool) (l : list A) (r : A) :
  find f l = Some r ->
  exists l1 l2, l = (l1 ++ r :: l2)%list /\ Forall (fun x => f x = false) l1 /\ f r = true.
Proof.
  induction l as [|x l IH]; cbn [find]; [discriminate|].
  destruct (f x) eqn:E.
  - intros [= ->]; exists [], l; repeat split; [constructor | exact E].
  - intros H; destruct (IH H) as (l1 & l2 & -> & H1 & H2).
    exists (x :: l1), l2; repeat split; [now constructor | exact H2].
Qed.

Lemma find_filter {A} (f : A -> bool) (l : list A) : find f l = hd_error (filter f l).
Proof.
  induction l as [|x l IH]; [reflexivity|]; cbn [find filter].
  now destruct (f x).
Qed.

Lemma filter_none {A} (f : A -> bool) (l : list A) :
  Forall (fun x => f x = false) l -> filter f l = [].
Proof.
  induction 1 as [|x l Hx _ IH]; [reflexivity|]; cbn [filter]; now rewrite Hx.
Qed.

Lemma sorted_after {A} (R : A -> A -> Prop) (l1 l2 : list A) (r : A) :
  StronglySorted R (l1 ++ r :: l2) -> Forall (R r) l2.
Proof.
  induction l1 as [|x l1 IH]; cbn [app]; intros H; inversion H; subst; auto.
Qed.

(** [matches] looks at the domain of the rate limit only, and at it through
    the key of the sort. *)
Lemma matches_by_key (x : RateLimit) (d : string) :
  matches x d
  = if sort_key x =? EmptyString then true
    else (d =? sort_key x) || endswith d ("." ++ sort_key x).
Proof. unfold matches, sort_key; now destruct (domain x). Qed.

Lemma matches_same_key (x y : RateLimit) (d : string) :
  sort_key x = sort_key y -> matches x d = matches y d.
Proof. intros E; now rewrite !matches_by_key, E. Qed.

(** The rate limit looked up in the sorted registry. *)
Lemma rate_lock_sorted (rates : list RateLimit) (d : string) (r : RateLimit) :
  rate_lock (sort_rates rates) d = Some r ->
  In r rates /\ matches r d = true
  /\ (forall x, In x rates -> matches x d = true -> not_below r x)
  /\ find (with_key (sort_key r)) rates = Some r.
Proof.
  unfold rate_lock; intros H.
  destruct (find_split _ _ _ H) as (l1 & l2 & E & H1 & Hr).
  pose proof (sort_rates_permutation rates) as P.
  pose proof (sort_rates_sorted rates) as S; rewrite E in S.
  split; [|split; [exact Hr|split]].
  - apply (Permutation_in _ P); rewrite E; apply in_elt.
  - intros x Hx Mx.
    apply (Permutation_in _ (Permutation_sym P)) in Hx; rewrite E in Hx.
    apply in_app_or in Hx; destruct Hx as [Hx|[<-|Hx]].
    + rewrite Forall_forall in H1; rewrite (H1 x Hx) in Mx; discriminate.
    + apply ltb_irrefl.
    + pose proof (sorted_after _ _ _ _ S) as F; rewrite Forall_forall in F; now apply F.
  - rewrite find_filter, <- sort_rates_stable, E, filter_app, filter_none.
    + cbn [app filter]; unfold with_key at 1; now rewrite String.eqb_refl.
    + apply (Forall_impl _ (P := fun x => matches x d = false)); [|exact H1].
      intros x Mx; unfold with_key; destruct (String.eqb_spec (sort_key x) (sort_key r)) as [K|K];
        [|reflexivity].
      rewrite (matches_same_key x r d K), Hr in Mx; discriminate.
Qed.

(** X6: the rate limit applied to a domain is one of those given that match
    it; among these it has the greatest domain as text, and of several rate
    limits given for that domain it is the one given first. *)
Theorem rate_lock_is_greatest_first_given :
  forall rates d r,
    rate_lock (sort_rates rates) d = Some r ->
    In r rates /\ matches r d = true
    /\ (forall x, In x rates -> matches x d = true -> (sort_key r <? sort_key x) = false)
    /\ find (with_key (sort_key r)) rates = Some r.
Proof. intros rates d r H; exact (rate_lock_sorted rates d r H). Qed.

Lemma rate_lock_is_greatest_first_given_witness :
  In rate_example [rate_api; rate_example]
  /\ matches rate_example "www.example.com" = true
  /\ (forall x, In x [rate_api; rate_example] -> matches x "www.example.com" = true ->
        (sort_key rate_example <? sort_key x) = false)
  /\ find (with_key (sort_key rate_example)) [rate_api; rate_example] = Some rate_example.
Proof.
  exact (rate_lock_is_greatest_first_given [rate_api; rate_example] "www.example.com"
           rate_example eq_refl).
Defined.

Lemma rate_lock_none (rates : list RateLimit) (d : string) :
  rate_lock (sort_rates rates) d = None <-> forall r, In r rates -> matches r d = false.
Proof.
  unfold rate_lock; split.
  - intros H r Hr; apply (find_none _ _ H).
    apply (Permutation_in _ (Permutation_sym (sort_rates_permutation rates)) Hr).
  - intros H; destruct (find _ (sort_rates rates)) as [r|] eqn:F; [|reflexivity].
    apply find_some in F; destruct F as [F1 F2].
    apply (Permutation_in _ (sort_rates_permutation rates)) in F1.
    rewrite (H r F1) in F2; discriminate.
Qed.

(** X7: a rate limit with no domain is applied only to the domains that no
    rate limit with a domain matches: when one of the rate limits given has a
    domain and matches, the rate limit applied has a domain. *)
Theorem scoped_before_catch_all :
  forall rates d s,
    In s rates -> no_domain s = false -> matches s d = true ->
    exists r, rate_lock (sort_rates rates) d = Some r
              /\ no_domain r = false /\ matches r d = true.
Proof.
  intros rates d s Hs Ns Ms.
  destruct (rate_lock (sort_rates rates) d) as [r|] eqn:L.
  - exists r; destruct (rate_lock_sorted rates d r L) as (_ & Mr & G & _).
    split; [reflexivity|split; [|exact Mr]].
    destruct (no_domain r) eqn:Nr; [|reflexivity].
    apply no_domain_key in Nr; specialize (G s Hs Ms); unfold not_below in G.
    rewrite Nr in G; apply empty_ltb, no_domain_key in G; congruence.
  - rewrite (proj1 (rate_lock_none rates d) L s Hs) in Ms; discriminate.
Qed.

Lemma scoped_before_catch_all_witness :
  exists r, rate_lock (sort_rates [rate_example; rate_api]) "api.example.com" = Some r
            /\ no_domain r = false /\ matches r "api.example.com" = true.
Proof.
  apply (scoped_before_catch_all [rate_example; rate_api] "api.example.com" rate_api).
  - right; left; reflexivity.
  - reflexivity.
  - reflexivity.
Defined.

(** X8: a request goes unlimited exactly when none of the rate limits given
    matches its domain; with a rate limit with no domain among them, none
    does. *)
Theorem unlimited_iff_no_match :
  forall rates d,
    (rate_lock (sort_rates rates) d = None <-> forall r, In r rates -> matches r d = false)
    /\ ((exists c, In c rates /\ no_domain c = true) -> rate_lock (sort_rates rates) d <> None).
Proof.
  intros rates d; split; [apply rate_lock_none|].
  intros (c & Hc & Nc) L.
  pose proof (proj1 (rate_lock_none rates d) L c Hc) as M.
  rewrite matches_by_key, (proj1 (no_domain_key c) Nc) in M; discriminate.
Qed.

Lemma all_chars_has_host (host rest : string) :
  host <> EmptyString -> all_chars host_char host = true -> has_host (host ++ rest) = true.
Proof.
  destruct host as [|c host]; [congruence|]; cbn [all_chars append has_host].
  intros _ H; now apply andb_true_iff in H.
Qed.

Lemma DOMAIN_PATTERN_host (scheme host rest : string) :
  scheme <> EmptyString -> all_chars scheme_char scheme = true ->
  host <> EmptyString -> all_chars host_char host = true -> stops host_char rest ->
  DOMAIN_PATTERN (scheme ++ "://" ++ host ++ rest) = Some host.
Proof.
  intros Hs1 Hs2 Hh1 Hh2 Hr.
  rewrite (DOMAIN_PATTERN_after_scheme scheme (host ++ rest) Hs1 Hs2).
  now rewrite (all_chars_has_host host rest Hh1 Hh2), (span_app host_char host rest Hh2 Hr).
Qed.

(** X9: the rate limit of a request is looked up on the host of its url
    alone: what follows the host from the first slash or colon on (a port, a
    path) plays no part, nor does the scheme, whether the url has one or is
    given [http://]. *)
Theorem gate_of_looks_at_the_host :
  forall rates host rest,
    host <> EmptyString -> all_chars host_char host = true -> stops host_char rest ->
    (forall scheme, scheme <> EmptyString -> all_chars is_word scheme = true ->
       gate_of rates (scheme ++ "://" ++ host ++ rest) = rate_lock rates host)
    /\ (PROTOCOL_PATTERN (host ++ rest) = false ->
        gate_of rates (host ++ rest) = rate_lock rates host).
Proof.
  intros rates host rest Hh1 Hh2 Hr; split.
  - intros scheme Hs1 Hs2; unfold gate_of, normalize.
    rewrite (PROTOCOL_PATTERN_scheme scheme (host ++ rest) Hs1 Hs2), DOMAIN_PATTERN_host; trivial.
    exact (all_chars_impl _ _ _ word_is_scheme_char Hs2).
  - intros P; unfold gate_of, normalize; rewrite P.
    change ("http://" ++ host ++ rest) with ("http" ++ "://" ++ host ++ rest).
    rewrite DOMAIN_PATTERN_host; trivial; discriminate.
Qed.

Lemma gate_of_looks_at_the_host_witness :
  gate_of [rate_example] ("https" ++ "://" ++ "example.com" ++ ":8443/status?x=1")
  = rate_lock [rate_example] "example.com".
Proof.
  assert (Hh : "example.com" <> EmptyString) by discriminate.
  assert (Hs : "https" <> EmptyString) by discriminate.
  exact (proj1 (gate_of_looks_at_the_host [rate_example] "example.com" ":8443/status?x=1"
                  Hh eq_refl eq_refl) "https" Hs eq_refl).
Defined.

(** ** The domains a rate limit matches *)

Lemma append_assoc (a b c : string) : (a ++ b) ++ c = a ++ b ++ c.
Proof. induction a as [|x a IH]; cbn [append]; [reflexivity | now rewrite IH]. Qed.

Lemma append_cancel_r (a b s : string) : a ++ s = b ++ s -> a = b.
Proof.
  revert b; induction a as [|x a IH]; intros [|y b] H; cbn [append] in H.
  - reflexivity.
  - apply (f_equal length) in H; cbn [length] in H; rewrite length_append in H; lia.
  - apply (f_equal length) in H; cbn [length] in H; rewrite length_append in H; lia.
  - injection H as -> H; now rewrite (IH b H).
Qed.

Lemma matches_iff (r : RateLimit) (scope d : string) :
  domain r = Some scope -> scope <> EmptyString ->
  (matches r d = true <-> d = scope \/ exists p, d = p ++ "." ++ scope).
Proof.
  intros Hd Hne; unfold matches; rewrite Hd.
  destruct (String.eqb_spec scope EmptyString) as [E|_]; [contradiction|].
  rewrite orb_true_iff, String.eqb_eq, endswith_iff; reflexivity.
Qed.

(** X10: a rate limit matches at the boundary of a label only: of the
    domains that end with its domain it matches the domain itself and those
    in which a dot comes just before it, and no other. *)
Theorem matches_at_label_boundary :
  forall r scope p,
    domain r = Some scope -> scope <> EmptyString ->
    (matches r (p ++ scope) = true <-> p = EmptyString \/ exists q, p = q ++ ".").
Proof.
  intros r scope p Hd Hne; rewrite (matches_iff r scope (p ++ scope) Hd Hne); split.
  - intros [E|[q E]].
    + left; apply (append_cancel_r p EmptyString scope E).
    + right; exists q; rewrite <- append_assoc in E.
      apply (append_cancel_r _ _ _ E).
  - intros [->|[q ->]]; [now left|].
    right; exists q; apply append_assoc.
Qed.

Lemma matches_at_label_boundary_witness :
  matches rate_example ("not" ++ "example.com") = true
  <-> "not" = EmptyString \/ exists q, "not" = q ++ ".".
Proof.
  apply (matches_at_label_boundary rate_example "example.com" "not");
    [reflexivity | discriminate].
Defined.

(** X11: a rate limit that matches a domain matches every subdomain of it,
    at any depth. *)
Theorem matches_every_subdomain :
  forall r d sub,
    matches r d = true -> matches r (sub ++ "." ++ d) = true.
Proof.
  intros r d sub; destruct (domain r) as [scope|] eqn:Hd;
    [|unfold matches; now rewrite Hd].
  destruct (String.eqb_spec scope EmptyString) as [E|Hne];
    [unfold matches; rewrite Hd, E; reflexivity|].
  rewrite !(matches_iff r scope _ Hd Hne).
  intros [->|[p ->]]; right; [now exists sub|].
  exists (sub ++ "." ++ p); now rewrite !append_assoc.
Qed.

Lemma matches_every_subdomain_witness :
  matches rate_example ("a.b" ++ "." ++ "api.example.com") = true.
Proof.
  exact (matches_every_subdomain rate_example "api.example.com" "a.b" eq_refl).
Defined.

(** ** The rate limits that RateLimit.__init__ builds *)

Lemma split_colon_some (raw d t : string) :
  split_colon raw = Some (d, t) -> colon_free d = true /\ raw = d ++ ":" ++ t.
Proof.
  revert d; induction raw as [|c raw IH]; intros d; cbn [split_colon]; [discriminate|].
  unfold is_colon at 1; destruct (Ascii.eqb_spec c ":") as [->|Hc].
  - intros [= <- <-]; now split.
  - destruct (split_colon raw) as [[a b]|]; [|discriminate].
    intros [= <- <-]; destruct (IH a eq_refl) as [Ha ->].
    split; [|reflexivity].
    cbn [colon_free]; rewrite Ha; unfold is_colon.
    now destruct (Ascii.eqb_spec c ":").
Qed.

Lemma split_colon_no_colon (raw : string) : split_colon raw = None -> colon_free raw = true.
Proof.
  induction raw as [|c raw IH]; cbn [split_colon colon_free]; [reflexivity|].
  destruct (is_colon c); [discriminate|].
  destruct (split_colon raw) as [[a b]|]; [discriminate|].
  intros _; now rewrite IH.
Qed.

(** X12: whatever the text of a rate limit, the domain of the rate limit
    built from it is the text before the first colon, so it holds no colon,
    and the rate is read from all that follows that colon; with no colon in
    the text there is no domain and the rate is read from the whole text.
    The rate limit starts with [last_use] at 0. *)
Theorem RateLimit_init_splits_at_first_colon :
  forall (py_float : string -> option spec_float) raw r,
    RateLimit_init py_float raw = Return r ->
    last_use r = PyInt 0
    /\ match domain r with
       | Some d => colon_free d = true
                   /\ exists t, raw = d ++ ":" ++ t /\ py_float t = Some (rate r)
       | None => colon_free raw = true /\ py_float raw = Some (rate r)
       end.
Proof.
  intros py_float raw r; rewrite RateLimit_init_cases.
  destruct (split_colon raw) as [[d t]|] eqn:S.
  - destruct (py_float t) as [x|] eqn:F; [|discriminate].
    intros [= <-]; cbn [last_use domain rate].
    destruct (split_colon_some raw d t S) as [Hd Hraw].
    split; [reflexivity|split; [exact Hd|now exists t]].
  - destruct (py_float raw) as [x|] eqn:F; [|discriminate].
    intros [= <-]; cbn [last_use domain rate].
    split; [reflexivity|split; [exact (split_colon_no_colon raw S) | reflexivity]].
Qed.

Lemma RateLimit_init_splits_at_first_colon_witness :
  last_use rate_of_port = PyInt 0
  /\ match domain rate_of_port with
     | Some d => colon_free d = true
                 /\ exists t, "example.com:8080" = d ++ ":" ++ t
                              /\ float_of_literal t = Some (rate rate_of_port)
     | None => colon_free "example.com:8080" = true
               /\ float_of_literal "example.com:8080" = Some (rate rate_of_port)
     end.
Proof.
  exact (RateLimit_init_splits_at_first_colon float_of_literal "example.com:8080"
           rate_of_port eq_refl).
Defined.

Lemma shr_fexp_nonneg (m e : Z) (l : location) :
  0 <= m -> 0 <= shr_m (fst (shr_fexp prec emax m e l)).
Proof.
  intros Hm; unfold shr_fexp, shr; rewrite fexp_eq.
  destruct (Z.max (Zdigits2 m + e - 53) (-1074) - e) as [|n|n]; simpl;
    try (rewrite shr_record_of_loc_m; exact Hm).
  rewrite iter_shr_m by (rewrite shr_record_of_loc_m; lia).
  rewrite shr_record_of_loc_m.
  apply Z.div_pos; [exact Hm | apply Z.pow_pos_nonneg; lia].
Qed.

Lemma round_nearest_even_nonneg (m : Z) (l : location) :
  0 <= m -> 0 <= round_nearest_even m l.
Proof.
  intros H; destruct l as [|[]]; simpl; try lia.
  destruct (Z.even m); lia.
Qed.

(** The rounding of a quantity that is not negative is a zero, a positive
    value or the positive infinity. *)
Lemma binary_round_aux_nonneg (m e : Z) (l : location) :
  0 <= m -> SFleb zero (binary_round_aux prec emax false m e l) = true.
Proof.
  intros Hm; unfold binary_round_aux.
  pose proof (shr_fexp_nonneg m e l Hm) as P1.
  destruct (shr_fexp prec emax m e l) as [mrs' e']; cbn [fst] in P1.
  pose proof (shr_fexp_nonneg _ e' loc_Exact
                (round_nearest_even_nonneg _ (loc_of_shr_record mrs') P1)) as P2.
  destruct (shr_fexp prec emax _ e' loc_Exact) as [mrs'' e'']; cbn [fst] in P2.
  destruct (shr_m mrs''); try lia; [reflexivity|].
  destruct (e'' <=? emax - prec)%Z; reflexivity.
Qed.

Lemma SFdiv_core_nonneg (m1 m2 : positive) (e1 e2 : Z) :
  0 <= fst (fst (SFdiv_core_binary prec emax (Zpos m1) e1 (Zpos m2) e2)).
Proof.
  unfold SFdiv_core_binary.
  set (s := e1 - e2 - _).
  set (m' := match s with Z0 => Zpos m1 | Zpos _ => Z.shiftl (Zpos m1) s | Zneg _ => 0 end).
  assert (H : 0 <= m').
  { unfold m'; destruct s; try lia; apply Z.shiftl_nonneg; lia. }
  pose proof (Z.div_pos m' (Zpos m2) H ltac:(lia)) as D; unfold Z.div in D.
  destruct (Z.div_eucl m' (Zpos m2)) as [q r]; exact D.
Qed.

Lemma reciprocal_nonneg (x : spec_float) :
  SFltb zero x = true -> SFleb zero (SFdiv prec emax (float_of_int 1) x) = true.
Proof.
  change (float_of_int 1) with (S754_finite false 4503599627370496 (-52)).
  destruct x as [s|[]| |[] m e]; try discriminate; intros _; [reflexivity|].
  cbn [SFdiv xorb].
  pose proof (SFdiv_core_nonneg 4503599627370496 m (-52) e) as H.
  destruct (SFdiv_core_binary prec emax _ (-52) (Zpos m) e) as [[mz ez] lz]; cbn [fst] in H.
  now apply binary_round_aux_nonneg.
Qed.

(** X13: the interval of a rate limit is never negative and never a NaN,
    whatever the rate: it is the int 0 exactly when the rate is not above 0
    (a NaN included), and the float [1 / rate] otherwise, which is a zero for
    the infinite rate. *)
Theorem interval_is_not_negative :
  forall (py_float : string -> option spec_float) raw r,
    RateLimit_init py_float raw = Return r ->
    SFleb zero (to_float (interval r)) = true
    /\ (interval r = PyInt 0 <-> SFltb zero (rate r) = false)
    /\ (SFltb zero (rate r) = true ->
        interval r = PyFloat (SFdiv prec emax (float_of_int 1) (rate r))).
Proof.
  intros py_float raw r; rewrite RateLimit_init_cases.
  destruct (match split_colon raw with Some (d, t) => (Some d, t) | None => (None, raw) end)
    as [d rate_text].
  destruct (py_float rate_text) as [x|]; [|discriminate].
  intros [= <-]; cbn [interval rate].
  destruct (SFltb zero x) eqn:P; cbn [to_float].
  - split; [now apply reciprocal_nonneg|split; [split; discriminate | reflexivity]].
  - split; [reflexivity|split; [split; reflexivity | discriminate]].
Qed.

Lemma interval_is_not_negative_witness :
  SFleb zero (to_float (interval rate_of_port)) = true.
Proof.
  exact (proj1 (interval_is_not_negative float_of_literal "example.com:8080"
                  rate_of_port eq_refl)).
Defined.

(** ** RateLimit.wait, run by one task *)

Lemma wait_sleeps (r : RateLimit) (t1 : spec_float) (clock : list spec_float) :
  py_gt (remaining_at r t1) (PyInt 0) = true ->
  wait r (t1 :: clock)
  = match wait r clock with
    | Some (r', sleeps) => Some (r', remaining_at r t1 :: sleeps)
    | None => None
    end.
Proof. intros H; cbn [wait]; unfold wait_turn; now rewrite H. Qed.

Lemma wait_returns (r : RateLimit) (t1 : spec_float) (clock : list spec_float) :
  py_gt (remaining_at r t1) (PyInt 0) = false ->
  wait r (t1 :: clock)
  = match clock with
    | t2 :: _ => Some (set_last_use r (PyFloat t2), [])
    | [] => None
    end.
Proof. intros H; cbn [wait]; unfold wait_turn; rewrite H; now destruct clock. Qed.

(** What a call of [wait] that returns went through. *)
Lemma wait_inv (r r' : RateLimit) (clock : list spec_float) (sleeps : list number) :
  wait r clock = Some (r', sleeps) ->
  exists t1 t2,
    nth_error clock (List.length sleeps) = Some t1
    /\ nth_error clock (S (List.length sleeps)) = Some t2
    /\ py_gt (remaining_at r t1) (PyInt 0) = false
    /\ r' = set_last_use r (PyFloat t2)
    /\ sleeps = map (remaining_at r) (firstn (List.length sleeps) clock)
    /\ Forall (fun s => py_gt s (PyInt 0) = true) sleeps.
Proof.
  revert sleeps; induction clock as [|t1 clock IH]; intros sleeps; [discriminate|].
  destruct (py_gt (remaining_at r t1) (PyInt 0)) eqn:G.
  - rewrite (wait_sleeps r t1 clock G).
    destruct (wait r clock) as [[r0 sleeps0]|]; [|discriminate].
    intros [= <- <-].
    destruct (IH sleeps0 eq_refl) as (a & b & Ha & Hb & Ga & E & Hs & Hp).
    exists a, b; cbn [List.length nth_error firstn map].
    repeat (split; [assumption|]); split; [now rewrite <- Hs | now constructor].
  - rewrite (wait_returns r t1 clock G).
    destruct clock as [|t2 clock]; [discriminate|].
    intros [= <- <-]; exists t1, t2; repeat split; trivial.
Qed.

(** X14: [wait] returns exactly when the test of its loop fails at some
    reading of the clock and the clock is read once more.  It has then slept
    once for each reading before that one, each time for the remaining time
    computed at that reading, which was above 0; it has assigned the next
    reading to [last_use], and nothing else of the rate limit. *)
Theorem wait_sleeps_until_the_gate_opens :
  forall r clock r' sleeps,
    wait r clock = Some (r', sleeps)
    <-> exists t1 t2,
          nth_error clock (List.length sleeps) = Some t1
          /\ nth_error clock (S (List.length sleeps)) = Some t2
          /\ py_gt (remaining_at r t1) (PyInt 0) = false
          /\ r' = set_last_use r (PyFloat t2)
          /\ sleeps = map (remaining_at r) (firstn (List.length sleeps) clock)
          /\ Forall (fun s => py_gt s (PyInt 0) = true) sleeps.
Proof.
  intros r clock r' sleeps; split; [apply wait_inv|].
  intros (t1 & t2 & H1 & H2 & G & -> & Hs & Hp).
  revert clock H1 H2 Hs; induction Hp as [|s sleeps Gs Hp IH]; intros clock H1 H2 Hs.
  - destruct clock as [|a [|b clock]]; try discriminate.
    cbn in H1, H2; injection H1 as ->; injection H2 as ->.
    now rewrite (wait_returns r t1 _ G).
  - destruct clock as [|a clock]; [discriminate|].
    cbn [List.length nth_error firstn map] in H1, H2, Hs.
    injection Hs as -> Hs.
    now rewrite (wait_sleeps r a clock Gs), (IH clock H1 H2 Hs).
Qed.

Lemma ticking_nth (a t1 t2 : spec_float) (clock : list spec_float) (n : nat) :
  valid a = true -> ticking a clock = true ->
  nth_error clock n = Some t1 -> nth_error clock (S n) = Some t2 ->
  valid t1 = true /\ valid t2 = true /\ SFleb t1 t2 = true /\ SFleb a t2 = true.
Proof.
  revert a clock; induction n as [|n IH]; intros a [|b clock] Va T H1 H2;
    try discriminate; cbn [ticking nth_error] in *;
    apply andb_true_iff in T; destruct T as [Tb T];
    apply ticks_iff in Tb; destruct Tb as [Vb Lb].
  - injection H1 as ->; destruct clock as [|c clock]; [discriminate|].
    injection H2 as ->; cbn [ticking] in T.
    apply andb_true_iff in T; destruct T as [Tc _].
    apply ticks_iff in Tc; destruct Tc as [Vc Lc].
    repeat split; trivial; now apply (SFleb_trans a t1 t2).
  - destruct (IH b clock Vb T H1 H2) as (V1 & V2 & L12 & Lb2).
    repeat split; trivial; now apply (SFleb_trans a b t2).
Qed.

Lemma remaining_after (r : RateLimit) (l t : spec_float) :
  last_use r = PyFloat l ->
  py_gt (remaining_at r t) (PyInt 0) = within (interval r) l t.
Proof. intros H; unfold remaining_at, within; now rewrite H. Qed.

(** X15: two successive uses of a rate limit by one task are spaced.  On a
    clock whose readings are binary64 values that do not go back, a call of
    [wait] that returns leaves in [last_use] a reading that is not before the
    former one and for which the test of the loop, on the former one, fails:
    [former + interval - reading > 0] is false. *)
Theorem wait_spaces_successive_uses :
  forall r l clock r' sleeps,
    last_use r = PyFloat l ->
    low (to_float (interval r)) ->
    valid l = true ->
    ticking l clock = true ->
    wait r clock = Some (r', sleeps) ->
    exists t, last_use r' = PyFloat t
              /\ SFleb l t = true
              /\ within (interval r) l t = false
              /\ interval r' = interval r.
Proof.
  intros r l clock r' sleeps Hl Li Vl T W.
  destruct (wait_inv _ _ _ _ W) as (t1 & t2 & H1 & H2 & G & -> & _).
  destruct (ticking_nth l t1 t2 clock _ Vl T H1 H2) as (V1 & V2 & L12 & Ll2).
  exists t2; split; [reflexivity|split; [exact Ll2|split; [|reflexivity]]].
  rewrite (remaining_after r l t1 Hl), within_test in G; rewrite within_test.
  apply (gate_monotone _ t1 t2); trivial.
  apply SFadd_low; [now apply valid_low | exact Li].
Qed.

Lemma wait_spaces_successive_uses_witness :
  exists t, last_use (set_last_use rate_example (PyFloat (flt 11 0))) = PyFloat t
            /\ SFleb (flt 10 0) t = true
            /\ within (interval rate_example) (flt 10 0) t = false
            /\ interval (set_last_use rate_example (PyFloat (flt 11 0))) = interval rate_example.
Proof.
  assert (L : low (to_float (interval rate_example))) by (vm_compute; discriminate).
  exact (wait_spaces_successive_uses (set_last_use rate_example (PyFloat (flt 10 0)))
           (flt 10 0) [flt 10 0; flt 11 0; flt 11 0]
           (set_last_use rate_example (PyFloat (flt 11 0)))
           [PyFloat (flt 1 0)] eq_refl L eq_refl eq_refl eq_refl).
Defined.

Lemma SFadd_zero_left_sub (x : spec_float) :
  low x -> SFltb zero (SFsub prec emax (SFadd prec emax zero x) x) = false.
Proof.
  intros L; destruct x as [s|s| |s m e]; try (float_cases; fail).
  change (SFadd prec emax zero (S754_finite s m e)) with (S754_finite s m e).
  now apply SFsub_self.
Qed.

Lemma first_remaining (r : RateLimit) (t : spec_float) :
  last_use r = PyInt 0 -> valid (to_float (interval r)) = true -> valid t = true ->
  SFleb (to_float (interval r)) t = true ->
  py_gt (remaining_at r t) (PyInt 0) = false.
Proof.
  intros Hl Vi Vt Lt; rewrite gate_test, Hl.
  apply (gate_monotone _ (to_float (interval r)) t); trivial.
  - apply py_add_low; [apply float_of_int_low | now apply valid_low].
  - destruct (interval r) as [z|x]; cbn [py_add to_float] in *.
    + apply SFsub_self, float_of_int_low.
    + apply SFadd_zero_left_sub; now apply valid_low.
Qed.

(** X16: the first use of a rate limit is not delayed: with [last_use] at
    0, as [__init__] leaves it, and a reading of the clock that is not below
    the interval (the clock counts the seconds since 1970), [wait] returns
    without a sleep and has assigned the next reading to [last_use]. *)
Theorem first_use_is_not_delayed :
  forall r t1 t2 clock,
    last_use r = PyInt 0 ->
    valid (to_float (interval r)) = true ->
    valid t1 = true ->
    SFleb (to_float (interval r)) t1 = true ->
    wait r (t1 :: t2 :: clock) = Some (set_last_use r (PyFloat t2), []).
Proof.
  intros r t1 t2 clock Hl Vi Vt Lt.
  now rewrite (wait_returns r t1 _ (first_remaining r t1 Hl Vi Vt Lt)).
Qed.

Lemma first_use_is_not_delayed_witness :
  wait rate_api [flt 1700000000 0; flt 1700000000 0]
  = Some (set_last_use rate_api (PyFloat (flt 1700000000 0)), []).
Proof.
  exact (first_use_is_not_delayed rate_api (flt 1700000000 0) (flt 1700000000 0) []
           eq_refl eq_refl eq_refl eq_refl).
Defined.

(** ** The pool at any moment of a run *)

Lemma awaiting_length (ws : list worker_state) :
  (List.length (awaiting ws) <= List.length ws)%nat.
Proof.
  induction ws as [|w ws IH]; [apply le_n|].
  cbn [awaiting flat_map List.length]; fold (awaiting ws).
  rewrite length_app; destruct w; cbn [pending List.length]; lia.
Qed.

Lemma served_run (n : nat) (text : string) (schedule : list resumption) (p : pool) :
  run schedule (start n text) = Some p -> served text p.
Proof.
  intros Hrun.
  apply (run_invariant (served text) (served_step text) _ _ _) with (2 := Hrun).
  exists []; simpl; rewrite awaiting_fresh, exited_fresh; repeat split; trivial.
  discriminate.
Qed.

Lemma workers_run (n : nat) (text : string) (schedule : list resumption) (p : pool) :
  run schedule (start n text) = Some p -> List.length (workers p) = n.
Proof.
  intros Hrun.
  apply (run_invariant (fun q => List.length (workers q) = n)) with (3 := Hrun).
  - intros i now head q q' Hq S; now rewrite (step_length _ _ _ _ _ S).
  - apply repeat_length.
Qed.

(** X17: at any moment of a run, complete or not, no line is lost and none
    is taken twice: the rows written, the requests in flight and the lines
    not yet read count as many as the lines of the file.  The requests in
    flight are never more than the workers, and no worker has returned
    before the file is at its end. *)
Theorem lines_are_accounted_for :
  forall n text schedule p,
    run schedule (start n text) = Some p ->
    (List.length (rows (output p)) + List.length (awaiting (workers p))
     + List.length (lines (file p)) = List.length (lines text))%nat
    /\ (List.length (awaiting (workers p)) <= n)%nat
    /\ (existsb exited (workers p) = true -> file p = EmptyString).
Proof.
  intros n text schedule p Hrun.
  destruct (served_run n text schedule p Hrun) as (done & Hrows & Hperm & Heof).
  split; [|split; [|exact Heof]].
  - apply Permutation_length in Hperm.
    rewrite !length_app, !length_map in Hperm.
    rewrite Hrows, length_map; lia.
  - rewrite <- (workers_run n text schedule p Hrun); apply awaiting_length.
Qed.

Lemma lines_are_accounted_for_witness :
  (List.length (rows (output suspended_pair)) + List.length (awaiting (workers suspended_pair))
   + List.length (lines (file suspended_pair)) = List.length (lines two_lines))%nat.
Proof.
  exact (proj1 (lines_are_accounted_for 2 two_lines (firstn 5 two_workers) suspended_pair
                  eq_refl)).
Defined.

Lemma nth_error_single {A} (x y : A) (i : nat) :
  nth_error [x] i = Some y -> i = 0%nat /\ y = x.
Proof.
  destruct i as [|i]; cbn [nth_error]; [now intros [= <-]|].
  destruct i; discriminate.
Qed.

Lemma in_order_step text i now head p p' :
  in_order text p -> step i now head p = Some p' -> in_order text p'.
Proof.
  intros (w & done & Hws & Hrows & Heq & Heof) Hstep.
  destruct (step_inv _ _ _ _ _ Hstep) as (w0 & rest & w' & events & Hw & Hwork & ->).
  rewrite Hws in Hw; destruct (nth_error_single _ _ _ Hw) as [-> ->].
  unfold in_order; cbn [workers output file]; rewrite Hws; cbn [update].
  destruct w as [|st|st url|]; cbn [worker] in Hwork; try discriminate.
  - injection Hwork as <- <- <-; exists (Loop now), done.
    rewrite app_nil_r; repeat split; trivial; discriminate.
  - destruct (readline (file p)) as [line rest0] eqn:R.
    destruct (line =? EmptyString) eqn:E; injection Hwork as <- <- <-.
    + apply String.eqb_eq in E; subst line.
      destruct (readline_eof (file p)) as [Hfile Hrest]; [now rewrite R|].
      rewrite R in Hrest; cbn [snd] in Hrest; subst rest0.
      exists Exited, done; rewrite app_nil_r; rewrite Hfile in Heq.
      repeat split; trivial.
    + apply String.eqb_neq in E.
      rewrite (lines_readline _ _ _ R E) in Heq.
      exists (Await st (strip line)), done; rewrite app_nil_r.
      repeat split; trivial; discriminate.
  - injection Hwork as <- <- <-; exists (Loop st), (done ++ [(url, head)])%list.
    repeat split; [| |discriminate].
    + rewrite rows_app, map_app, Hrows; cbn [map]; f_equal.
      now destruct (flush_due st now).
    + rewrite map_app, <- app_assoc; exact Heq.
Qed.

Lemma firstn_prefix {A} (l1 l2 : list A) : firstn (List.length l1) (l1 ++ l2) = l1.
Proof. induction l1 as [|x l1 IH]; [reflexivity|]; cbn; now rewrite IH. Qed.

(** X18: with a single worker the rows come in the order of the lines: at
    any moment of the run the rows written are those of the first lines of
    the file, one for one, and when the run is complete they are those of
    all the lines. *)
Theorem single_worker_keeps_the_order :
  forall text schedule p,
    run schedule (start 1 text) = Some p ->
    exists done : list (string * result Z),
      rows (output p) = map answer done
      /\ map fst done = firstn (List.length done) (map strip (lines text))
      /\ (complete p = true -> map fst done = map strip (lines text)).
Proof.
  intros text schedule p Hrun.
  assert (H : in_order text p).
  { apply (run_invariant (in_order text) (in_order_step text) _ _ _) with (2 := Hrun).
    exists Fresh, []; repeat split; discriminate. }
  destruct H as (w & done & Hws & Hrows & Heq & Heof).
  exists done; split; [exact Hrows|split].
  - rewrite <- Heq, <- (length_map fst done); symmetry; apply firstn_prefix.
  - unfold complete; rewrite Hws; cbn [forallb]; rewrite andb_true_r; intros Hw.
    rewrite (Heof Hw) in Heq; destruct w; try discriminate.
    cbn in Heq; now rewrite app_nil_r in Heq.
Qed.

Lemma single_worker_keeps_the_order_witness :
  exists done : list (string * result Z),
    rows (output (after_one_worker_slow)) = map answer done
    /\ map fst done = firstn (List.length done) (map strip (lines two_lines))
    /\ (complete after_one_worker_slow = true -> map fst done = map strip (lines two_lines)).
Proof.
  exact (single_worker_keeps_the_order two_lines one_worker_slow after_one_worker_slow eq_refl).
Defined.

Lemma readline_append (text : string) :
  text = fst (readline text) ++ snd (readline text).
Proof.
  induction text as [|c text IH]; cbn [readline]; [reflexivity|].
  destruct (c =? "010")%char; [reflexivity|].
  destruct (readline text) as [l rest]; cbn [fst snd append] in *; now rewrite <- IH.
Qed.

Lemma step_extends i now head p p' :
  step i now head p = Some p' ->
  (exists events, output p' = (output p ++ events)%list)
  /\ (exists consumed, file p = consumed ++ file p').
Proof.
  intros Hstep.
  destruct (step_inv _ _ _ _ _ Hstep) as (w & rest & w' & events & _ & Hwork & ->).
  cbn [output file]; split; [now exists events|].
  destruct w as [|st|st url|]; cbn [worker] in Hwork; try discriminate.
  - injection Hwork as <- <- <-; now exists EmptyString.
  - pose proof (readline_append (file p)) as R.
    destruct (readline (file p)) as [line rest0]; cbn [fst snd] in R.
    destruct (line =? EmptyString); injection Hwork as <- <- <-; now exists line.
  - injection Hwork as <- <- <-; now exists EmptyString.
Qed.

(** X19: a run only adds to the output and only moves forward in the file:
    from any pool, what was written stays as it was, at the head of the
    output, the rows before are the first rows after, and the text left to
    read is an end of the text that was left before. *)
Theorem output_grows_file_shrinks :
  forall schedule p p',
    run schedule p = Some p' ->
    (exists events, output p' = (output p ++ events)%list
                    /\ rows (output p') = (rows (output p) ++ rows events)%list)
    /\ (exists consumed, file p = consumed ++ file p')
    /\ List.length (workers p') = List.length (workers p).
Proof.
  intros schedule p p' Hrun.
  apply (run_invariant
           (fun q => (exists events, output q = (output p ++ events)%list
                                     /\ rows (output q) = (rows (output p) ++ rows events)%list)
                     /\ (exists consumed, file p = consumed ++ file q)
                     /\ List.length (workers q) = List.length (workers p)))
    with (3 := Hrun).
  - intros i now head q q' ((ev & Hev & _) & (co & Hco) & Hlen) Hstep.
    destruct (step_extends _ _ _ _ _ Hstep) as ((ev' & Hev') & (co' & Hco')).
    split; [|split].
    + exists (ev ++ ev')%list; rewrite Hev', Hev, <- app_assoc; split; [reflexivity|].
      now rewrite <- rows_app.
    + exists (co ++ co'); now rewrite Hco, Hco', append_assoc.
    + now rewrite (step_length _ _ _ _ _ Hstep).
  - split; [|split; [now exists EmptyString | reflexivity]].
    exists []; now rewrite !app_nil_r.
Qed.

Lemma output_grows_file_shrinks_witness :
  exists consumed, file before_blank = consumed ++ file after_blank.
Proof.
  exact (proj1 (proj2 (output_grows_file_shrinks
                         [resume 0 (flt 1 0) (Return 200); resume 0 (flt 1 0) (Return 200)]
                         before_blank after_blank eq_refl))).
Defined.

(** ** The rate limits that apply to every domain *)

Lemma scoped_rejects_empty (r : RateLimit) (scope : string) :
  domain r = Some scope -> scope <> EmptyString -> matches r EmptyString = false.
Proof.
  intros Hd Hne; unfold matches; rewrite Hd.
  destruct (String.eqb_spec scope EmptyString) as [E|_]; [contradiction|].
  destruct scope; [contradiction | reflexivity].
Qed.

(** X20: the rate limits that match every domain are those built from a
    text with no colon, or from a text that starts with a colon: these and
    no other. *)
Theorem catch_all_texts :
  forall (py_float : string -> option spec_float) raw r,
    RateLimit_init py_float raw = Return r ->
    ((forall d, matches r d = true)
     <-> colon_free raw = true \/ exists t, raw = ":" ++ t).
Proof.
  intros py_float raw r; rewrite RateLimit_init_cases.
  destruct (split_colon raw) as [[scope t]|] eqn:S.
  - destruct (py_float t) as [x|]; [|discriminate].
    intros [= <-]; destruct (split_colon_some raw scope t S) as [Hc ->].
    destruct (String.eqb_spec scope EmptyString) as [->|Hne]; split.
    + intros _; right; now exists t.
    + intros _ d; reflexivity.
    + intros H; specialize (H EmptyString).
      rewrite scoped_rejects_empty with (scope := scope) in H;
        [discriminate | reflexivity | exact Hne].
    + intros [C|[t' E]].
      * rewrite (split_colon_none _ C) in S; discriminate.
      * destruct scope; [contradiction|].
        injection E as -> _; discriminate.
  - destruct (py_float raw) as [x|]; [|discriminate].
    intros [= <-]; split.
    + intros _; left; exact (split_colon_no_colon raw S).
    + intros _ d; reflexivity.
Qed.

Lemma catch_all_texts_witness :
  (forall d, matches rate_of_port d = true)
  <-> colon_free "example.com:8080" = true \/ exists t, "example.com:8080" = ":" ++ t.
Proof.
  exact (catch_all_texts float_of_literal "example.com:8080" rate_of_port eq_refl).
Defined.
